(** * The plugin API's event bridge: listener registry and menu action groups

    A shallow embedding of [Listeners] (the listener registry behind
    [AppAPI.eventListeners]) and of [AH5Communicator.registerMenuActionGroup],
    followed by the properties the design document states about them.

    Conventions of the embedding.
    - JavaScript values are the inductive [value]; function objects are [fn].
      A caller-supplied function is [Native id]; what it does when called is
      given by the [fn_body] field of the [engine] a definition is run with.
    - [this._listeners] is an array object used as a dictionary from event
      names to array objects.  The dictionary is a [gmap string ref]; the
      array objects live in a store indexed by reference, because [notify]
      keeps iterating an array object that a callback may meanwhile extend,
      tombstone or unlink from the dictionary.  The operations are
      embedded as they behave at event names that the array treats as
      plain keys of its own ([ordinary]: not ["length"], not a name
      inherited from [Array.prototype]); a property that says what an
      operation puts into the sequence of a named event type has
      [ordinary] among its hypotheses.
    - A call either returns or throws: [result].  What is thrown comes with
      what had been done by then (the registry, the calls made so far), so
      that the effects a function has before it fails can be stated. *)

From Stdlib Require Import ZArith Sorting.Sorted.
From stdpp Require Import base option list gmap strings pretty.

Set Default Proof Using "Type".
Set Warnings "-register-all".
Open Scope Z_scope.
Open Scope nat_scope.

(** ** JavaScript values *)

Module JS.

(** Function objects.  [MenuAction] and [Noop] are the two closures that
    [createMenuAction] builds; [serial] tells two closures built by separate
    evaluations of the same function expression apart. *)
Inductive fn : Type :=
| Native (id : nat)
| MenuAction (serial : nat) (func : fn)
| Noop (serial : nat).

Inductive value : Type :=
| VUndefined
| VNull
| VBool (b : bool)
| VNum (n : Z)
| VStr (s : string)
| VFun (f : fn)
| VArr (elems : list value)
| VObj (fields : list (string * value)).

Inductive error : Type :=
| TypeError
| Thrown (v : value).

(** The outcome of a call: a normal return of [a], or the exception [e]
    thrown at a point where [x] had been reached. *)
Inductive result (X A : Type) : Type :=
| Ok (a : A)
| Throw (e : error) (x : X).
Arguments Ok {X A} a.
Arguments Throw {X A} e x.

#[global] Instance result_ret {X} : MRet (result X) := fun _ a => Ok a.
#[global] Instance result_bind {X} : MBind (result X) := fun _ _ k m =>
  match m with
  | Ok a => k a
  | Throw e x => Throw e x
  end.

#[global] Instance fn_eq_dec : EqDecision fn.
Proof. solve_decision. Defined.

(** [ToBoolean]. *)
Definition truthy (v : value) : bool :=
  match v with
  | VUndefined | VNull => false
  | VBool b => b
  | VNum n => negb (n =? 0)%Z
  | VStr EmptyString => false
  | VStr (String _ _) => true
  | VFun _ | VArr _ | VObj _ => true
  end.

(** [v === false], [v === true], [v === undefined]. *)
Definition is_false (v : value) : bool :=
  match v with VBool false => true | _ => false end.

Definition is_true (v : value) : bool :=
  match v with VBool true => true | _ => false end.

Definition is_undefined (v : value) : bool :=
  match v with VUndefined => true | _ => false end.

(** [typeof v === "function"]. *)
Definition is_function (v : value) : bool :=
  match v with VFun _ => true | _ => false end.

(** [e === callback] against a function: identity of function objects. *)
Definition same_function (e : value) (callback : fn) : bool :=
  match e with
  | VFun g => bool_decide (g = callback)
  | _ => false
  end.

Fixpoint assoc (k : string) (fields : list (string * value)) : value :=
  match fields with
  | [] => VUndefined
  | (k', v) :: rest => if String.eqb k k' then v else assoc k rest
  end.

(** [v.k] for a plain field name [k] on a value that is neither [undefined]
    nor [null]: the field of an object literal, [undefined] on anything
    else. *)
Definition get_field (v : value) (k : string) : value :=
  match v with
  | VObj fields => assoc k fields
  | _ => VUndefined
  end.

(** What a caller-supplied function does when called: it may call [add],
    [remove] and [removeAll] of the registry, using what they return, and
    then returns a value or throws one.  (A callback that itself calls
    [notify] is not covered.) *)
Inductive prog : Type :=
| Return (v : value)
| Raise (v : value)
| CallAdd (event : string) (callback : value) (k : nat → prog)
| CallRemove (event : string) (index : Z) (k : prog)
| CallRemoveAll (event : value) (k : prog).

(** The parts of the ECMAScript runtime the code relies on without defining
    them: what a caller-supplied function does; the [remove] member of a
    caller-supplied function object ([undefined] when it has none);
    [ToLength(o.length)] of an array-like object that is not an array; the
    property key of a value that is not a primitive, or of a number that is
    not printed digit by digit; and the names an array finds on its
    prototype chain without anybody having assigned them (["push"],
    ["constructor"], ["toString"], ...). *)
Record engine : Type := {
  fn_body : nat → list value → prog;
  remove_member : nat → value;
  to_length : value → nat;
  object_key : value → string;
  inherited : string → bool;
}.

(** An event name that the dictionary [this._listeners], which is an array
    object, treats as a plain key of its own: not ["length"], and not a
    name the array inherits.  At the other names the test
    [this._listeners[event] === undefined] of [add] finds something the
    registry never put there; what the registry operations are said to do
    to the sequence of a named event type is said for ordinary names. *)
Definition ordinary (E : engine) (event : string) : Prop :=
  event ≠ "length" ∧ inherited E event = false.

(** The integers that [Number.prototype.toString] prints digit by digit. *)
Definition safe_integer (n : Z) : bool :=
  (Z.abs n <=? 2 ^ 53)%Z.

(** [ToPropertyKey]. *)
Definition to_key (E : engine) (v : value) : string :=
  match v with
  | VUndefined => "undefined"
  | VNull => "null"
  | VBool true => "true"
  | VBool false => "false"
  | VNum n => if safe_integer n then pretty n else object_key E v
  | VStr s => s
  | VFun _ | VArr _ | VObj _ => object_key E v
  end.

(** The argument list [Function.prototype.apply] builds from its second
    argument: none for [undefined] and [null], the elements of an array, the
    indexed fields of another object; for a primitive there is none and
    [apply] throws a [TypeError]. *)
Definition create_list_from_array_like (E : engine) (v : value)
  : option (list value) :=
  match v with
  | VUndefined | VNull => Some []
  | VArr elems => Some elems
  | VObj _ | VFun _ =>
      Some (map (fun i : nat => get_field v (pretty i))
              (seq 0 (to_length E v)))
  | VBool _ | VNum _ | VStr _ => None
  end.

End JS.
Export JS.

(** ** The listener registry ([Listeners]) *)

Module Listeners.

Definition ref : Type := nat.

(** The state the modelled code works on: the dictionary [this._listeners]
    of the one [Listeners] instance ([AppAPI.eventListeners]), the array
    objects it has created, and the number of closures created so far. *)
Record state : Type := {
  listeners : gmap string ref;
  arrays : list (list value);
  closures : nat;
}.

(** [new Listeners()]: [this._listeners = []]. *)
Definition Listeners : state :=
  {| listeners := ∅; arrays := []; closures := 0 |}.

(** The contents of the array object [r]. *)
Definition array_at (st : state) (r : ref) : list value :=
  default [] (arrays st !! r).

Definition set_array (r : ref) (a : list value) (st : state) : state :=
  {| listeners := listeners st;
     arrays := <[r := a]> (arrays st);
     closures := closures st |}.

(** [this._listeners[event] = []]: a new, empty array object is created and
    the dictionary entry is pointed at it. *)
Definition bind_fresh (event : string) (st : state) : ref * state :=
  let r := length (arrays st) in
  (r, {| listeners := <[event := r]> (listeners st);
         arrays := arrays st ++ [[]];
         closures := closures st |}).

(** [a[index]] for a numeric [index]: [undefined] outside the array. *)
Definition element (a : list value) (index : Z) : value :=
  if (index <? 0)%Z then VUndefined
  else default VUndefined (a !! Z.to_nat index).

(** [Listeners.prototype.add], at an [ordinary] event name: there
    [this._listeners[event]] is [undefined] until the registry assigns an
    array to it. *)
Definition add (event : string) (callback : value) (st : state)
  : nat * state :=
  let '(r, st1) :=
    match listeners st !! event with
    | None => bind_fresh event st
    | Some r => (r, st)
    end in
  let index := length (array_at st1 r) in
  (index, set_array r (array_at st1 r ++ [callback]) st1).

(** [Listeners.prototype.addAll], over the enumerable fields of [events] in
    enumeration order; the result is the dictionary [out]. *)
Fixpoint addAll (events : list (string * value)) (out : gmap string nat)
  (st : state) : gmap string nat * state :=
  match events with
  | [] => (out, st)
  | (event, callback) :: rest =>
      let '(index, st1) := add event callback st in
      addAll rest (<[event := index]> out) st1
  end.

(** [Listeners.prototype.remove]. *)
Definition remove (event : string) (index : Z) (st : state) : state :=
  match listeners st !! event with
  | None => st
  | Some r =>
      if is_undefined (element (array_at st r) index) then st
      else set_array r (<[Z.to_nat index := VBool false]> (array_at st r)) st
  end.

(** [Listeners.prototype.removeAll]. *)
Definition removeAll (E : engine) (event : value) (st : state) : state :=
  if negb (truthy event) then
    {| listeners := ∅; arrays := arrays st; closures := closures st |}
  else snd (bind_fresh (to_key E event) st).

(** Running the body of a caller-supplied function: the calls it makes into
    the registry, then its return value or the value it throws. *)
Fixpoint run (E : engine) (p : prog) (st : state)
  : result state (value * state) :=
  match p with
  | Return v => Ok (v, st)
  | Raise v => Throw (Thrown v) st
  | CallAdd event callback k =>
      let '(index, st1) := add event callback st in run E (k index) st1
  | CallRemove event index k => run E k (remove event index st)
  | CallRemoveAll event k => run E k (removeAll E event st)
  end.

(** Calling a function object with an argument list.  [MenuAction _ func] is
    [function(data) { func(data.id); }] and [Noop _] is [function() {}]. *)
Fixpoint call (E : engine) (f : fn) (args : list value) (st : state)
  : result state (value * state) :=
  match f with
  | Native id => run E (fn_body E id args) st
  | MenuAction _ func =>
      match nth 0 args VUndefined with
      | VUndefined | VNull => Throw TypeError st
      | data =>
          '(_, st1) ← call E func [get_field data "id"] st;
          Ok (VUndefined, st1)
      end
  | Noop _ => Ok (VUndefined, st)
  end.

(** [jQuery.each(obj, callback)] on an array object: the length is read
    once, [obj[i]] is read when the loop reaches [i], and a callback that
    returns [false] stops the loop (jQuery is an external library; this is
    what its [each] does on arrays).  [acc] stands for the local variables
    of the enclosing function that the callback assigns to. *)
Fixpoint each_from {A : Type} (r : ref)
  (callback : nat → value → A → state →
              result (A * state) (value * A * state))
  (i count : nat) (acc : A) (st : state) : result (A * state) (A * state) :=
  match count with
  | 0 => Ok (acc, st)
  | S count' =>
      '(v, acc1, st1) ← callback i (element (array_at st r) (Z.of_nat i)) acc st;
      if is_false v then Ok (acc1, st1)
      else each_from r callback (S i) count' acc1 st1
  end.

(** [jQuery.each(this._listeners[event], callback)].  An [undefined] first
    argument has nothing to enumerate, as jQuery 3 has it (earlier versions
    fail reading its [length]); only [removeByCallback] for an event type
    that was never registered gets there, and the properties below are
    about registered event types. *)
Definition each {A : Type} (obj : option ref)
  (callback : nat → value → A → state →
              result (A * state) (value * A * state))
  (acc : A) (st : state) : result (A * state) (A * state) :=
  match obj with
  | None => Ok (acc, st)
  | Some r => each_from r callback 0 (length (array_at st r)) acc st
  end.

(** The [remove] member of a function object; the closures of
    [createMenuAction] have none. *)
Definition member_remove (E : engine) (f : fn) : value :=
  match f with
  | Native id => remove_member E id
  | MenuAction _ _ | Noop _ => VUndefined
  end.

(** [Listeners.prototype.removeByCallback].  Inside the function given to
    [$.each], [this] is the element [e], so [this.remove] is looked up on the
    matching function object: calling it is a [TypeError] unless that
    function object happens to have a [remove] member that is a function,
    which is then called with [event] and [i].  [return true] returns from
    the inner function only, and the loop goes on. *)
Definition removeByCallback_each (E : engine) (event : string)
  (callback : fn) (i : nat) (e : value) (acc : unit) (st : state)
  : result (unit * state) (value * unit * state) :=
  if same_function e callback then
    match member_remove E callback with
    | VFun m =>
        match call E m [VStr event; VNum (Z.of_nat i)] st with
        | Ok (_, st1) => Ok (VBool true, acc, st1)
        | Throw err st1 => Throw err (acc, st1)
        end
    | _ => Throw TypeError (acc, st)
    end
  else Ok (VUndefined, acc, st).

Definition removeByCallback (E : engine) (event : string) (callback : fn)
  (st : state) : result state (bool * state) :=
  match each (listeners st !! event)
          (removeByCallback_each E event callback) tt st with
  | Ok (_, st1) => Ok (false, st1)
  | Throw err (_, st1) => Throw err st1
  end.

(** One call that [notify] makes: the slot, the function found there, the
    arguments it was given and what it returned. *)
Record invocation : Type := {
  inv_slot : nat;
  inv_fn : fn;
  inv_args : list value;
  inv_result : value;
}.

(** [data && data.params && data.params === true]. *)
Definition positional (data : value) : bool :=
  truthy data && truthy (get_field data "params")
  && is_true (get_field data "params").

(** How [notify] calls the function [e] it found in a slot:
    [e.apply(void 0, data.data)] when the payload is positional, [e(data)]
    otherwise.  Yields the arguments passed, the value returned and the
    state. *)
Definition invoke (E : engine) (data : value) (e : fn) (st : state)
  : result state (list value * value * state) :=
  if positional data then
    match create_list_from_array_like E (get_field data "data") with
    | None => Throw TypeError st
    | Some args =>
        '(r, st1) ← call E e args st;
        Ok (args, r, st1)
    end
  else
    '(r, st1) ← call E e [data] st;
    Ok ([data], r, st1).

(** The function given to [jQuery.each] in [notify]; [acc] is the local
    [returnValue] together with the record of the calls made so far.  In
    either mode a result that is [=== false] sets [returnValue] to [false];
    the function itself returns nothing. *)
Definition notify_each (E : engine) (data : value) (i : nat) (e : value)
  (acc : bool * list invocation) (st : state)
  : result ((bool * list invocation) * state)
           (value * (bool * list invocation) * state) :=
  match e with
  | VFun f =>
      match invoke E data f st with
      | Ok (args, r, st1) =>
          Ok (VUndefined,
              (if is_false r then false else acc.1,
               acc.2 ++ [{| inv_slot := i; inv_fn := f;
                            inv_args := args; inv_result := r |}]),
              st1)
      | Throw err st1 => Throw err (acc, st1)
      end
  | _ => Ok (VUndefined, acc, st)
  end.

(** [Listeners.prototype.notify]: the returned boolean, the calls made, and
    the state afterwards; when a callback throws, the calls that had
    returned before it and the state it left. *)
Definition notify (E : engine) (event : string) (data : value) (st : state)
  : result (list invocation * state) (bool * list invocation * state) :=
  match listeners st !! event with
  | None => Ok (true, [], st)
  | Some r =>
      match each (Some r) (notify_each E data) (true, []) st with
      | Ok (acc, st1) => Ok (acc.1, acc.2, st1)
      | Throw err (acc, st1) => Throw err (acc.2, st1)
      end
  end.

(** The slots of an event type, as a caller sees them. *)
Definition slots (st : state) (event : string) : list value :=
  match listeners st !! event with
  | None => []
  | Some r => array_at st r
  end.

End Listeners.

(** ** The menu action group registrar ([AH5Communicator]) *)

Module AH5Communicator.
Import Listeners.

(** One entry of [group.actions], and the group descriptor. *)
Record action : Type := {
  action_label : value;
  action_icon : value;
  callback : value;
}.

Record group : Type := {
  app : value;
  label : value;
  icon : value;
  actions : list action;
}.

(** A call of [AppAPI.request(action, payload, callback)], whose definition
    is not part of the modelled sources: the three arguments it is given.
    The reply handler takes the host's list of event-type names; it yields
    the calls made to the caller's completion callback and the state, also
    when it ends in an exception. *)
Record request : Type := {
  request_action : string;
  request_payload : group;
  request_callback :
    engine → list string → state →
    result (list (fn * list value) * state) (list (fn * list value) * state);
}.

(** The local [createMenuAction]; each call creates a new closure. *)
Definition createMenuAction (func : value) (st : state) : fn * state :=
  let serial := closures st in
  let st1 := {| listeners := listeners st; arrays := arrays st;
                closures := S serial |} in
  match func with
  | VFun f => (MenuAction serial f, st1)
  | _ => (Noop serial, st1)
  end.

(** The [for] loop of the reply handler, from index [i] on; [names] are
    [typeNames[i]], [typeNames[i+1]], ...  Reading [.callback] of a missing
    [group.actions[i]] is a [TypeError]. *)
Fixpoint register_from (acts : list action) (i : nat) (names : list string)
  (st : state) : result state state :=
  match names with
  | [] => Ok st
  | name :: rest =>
      match acts !! i with
      | None => Throw TypeError st
      | Some a =>
          let '(menuAction, st1) := createMenuAction (callback a) st in
          let '(_, st2) := add name (VFun menuAction) st1 in
          register_from acts (S i) rest st2
      end
  end.

(** The function [registerMenuActionGroup] passes to [AppAPI.request]. *)
Definition reply (group : group) (completion : value) (E : engine)
  (typeNames : list string) (st : state)
  : result (list (fn * list value) * state)
           (list (fn * list value) * state) :=
  if negb (length typeNames =? length (actions group)) then Ok ([], st)
  else
    match register_from (actions group) 0 typeNames st with
    | Throw err st1 => Throw err ([], st1)
    | Ok st1 =>
        match completion with
        | VFun c =>
            match call E c [VArr (VStr <$> typeNames)] st1 with
            | Ok (_, st2) => Ok ([(c, [VArr (VStr <$> typeNames)])], st2)
            | Throw err st2 =>
                Throw err ([(c, [VArr (VStr <$> typeNames)])], st2)
            end
        | _ => Throw TypeError ([], st1)
        end
    end.

(** [AH5Communicator.registerMenuActionGroup]. *)
Definition registerMenuActionGroup (group : group) (completion : value)
  : request :=
  {| request_action := "register-menu-action-group";
     request_payload := group;
     request_callback := reply group completion |}.

(** Whether a group descriptor still carries a function in one of its
    actions. *)
Definition carries_callback (g : group) : bool :=
  existsb (fun a => is_function (callback a)) (actions g).

End AH5Communicator.

(** ** Notions used to state the properties *)

Import Listeners AH5Communicator.

(** The function slots of an array, each with its index, from index [j]. *)
Fixpoint active_from (j : nat) (a : list value) : list (nat * fn) :=
  match a with
  | [] => []
  | VFun f :: rest => (j, f) :: active_from (S j) rest
  | _ :: rest => active_from (S j) rest
  end.

(** The active callbacks of an event type: slot index and function. *)
Definition active (st : state) (event : string) : list (nat * fn) :=
  active_from 0 (slots st event).

(** The callback [f] returns normally when [notify] calls it with the
    payload [data], whatever the registry holds at that moment. *)
Definition returns (E : engine) (data : value) (f : fn) : Prop :=
  ∀ st, ∃ out, invoke E data f st = Ok out.

(** The callback [f] returns normally and leaves the registry alone. *)
Definition quiet (E : engine) (data : value) (f : fn) : Prop :=
  ∀ st, ∃ args r, invoke E data f st = Ok (args, r, st).

(** The arguments recorded for a call agree with the invocation mode the
    payload selects. *)
Definition mode_ok (E : engine) (data : value) (c : invocation) : Prop :=
  if positional data
  then create_list_from_array_like E (get_field data "data")
       = Some (inv_args c)
  else inv_args c = [data].

(** The call returned something other than the literal [false]. *)
Definition allows (c : invocation) : bool := negb (is_false (inv_result c)).

(** The state [st'] is reached from [st] by making the calls of [log], in
    that order, each with the arguments and the result the log records. *)
Fixpoint replays (E : engine) (log : list invocation) (st st' : state)
  : Prop :=
  match log with
  | [] => st' = st
  | c :: rest =>
      ∃ st1, call E (inv_fn c) (inv_args c) st = Ok (inv_result c, st1) ∧
             replays E rest st1 st'
  end.

(** Slot [j] of the sequence that [event] had in [st] held the function
    [f] then, and the same array object still holds it there in [st']. *)
Definition still_active (st st' : state) (event : string) (j : nat) (f : fn)
  : Prop :=
  slots st event !! j = Some (VFun f) ∧
  ∀ r, listeners st !! event = Some r →
       array_at st' r !! j = Some (VFun f).

(** What one array object may become while the registry is used: it can
    grow at the end, and a slot can be overwritten by the tombstone. *)
Definition evolved (a a' : list value) : Prop :=
  length a ≤ length a' ∧
  ∀ i v, a !! i = Some v → a' !! i = Some v ∨ a' !! i = Some (VBool false).

Definition grows (st st' : state) : Prop :=
  length (arrays st) ≤ length (arrays st') ∧
  ∀ r, r < length (arrays st) → evolved (array_at st r) (array_at st' r).

(** Every dictionary entry points at an array object of the store, and no
    two entries share one. *)
Definition wf (st : state) : Prop :=
  (∀ event r, listeners st !! event = Some r → r < length (arrays st)) ∧
  (∀ e1 e2 r, listeners st !! e1 = Some r → listeners st !! e2 = Some r →
              e1 = e2).


(** A sequence of [add] and [remove] calls on one event type. *)
Inductive op : Type :=
| OpAdd (f : fn)
| OpRemove (index : Z).

Definition apply_op (event : string) (st : state) (o : op) : state :=
  match o with
  | OpAdd f => (add event (VFun f) st).2
  | OpRemove index => remove event index st
  end.

Definition apply_ops (event : string) (ops : list op) (st : state) : state :=
  foldl (apply_op event) st ops.


(** Concrete inputs used for the examples below. *)

(** Names an array inherits in an ECMAScript 5 engine. *)
Definition array_members : list string :=
  ["constructor"; "toString"; "toLocaleString"; "valueOf"; "hasOwnProperty";
   "isPrototypeOf"; "propertyIsEnumerable"; "__proto__"; "concat"; "join";
   "pop"; "push"; "reverse"; "shift"; "unshift"; "slice"; "splice"; "sort";
   "filter"; "forEach"; "some"; "every"; "map"; "indexOf"; "lastIndexOf";
   "reduce"; "reduceRight"].

Definition constant_engine (v : value) : engine :=
  {| fn_body := λ _ _, Return v;
     remove_member := λ _, VUndefined;
     to_length := λ _, 0;
     object_key := λ _, "[object Object]";
     inherited := λ name, bool_decide (name ∈ array_members) |}.

(** Function 0 registers function 1 for event ["x"] and vetoes; function 2
    tombstones slot 1 of ["x"]; every other function returns [true]. *)
Definition reentrant_engine : engine :=
  {| fn_body := λ id _,
       match id with
       | 0 => CallAdd "x" (VFun (Native 1)) (λ _, Return (VBool false))
       | 2 => CallRemove "x" 1 (Return VUndefined)
       | _ => Return (VBool true)
       end;
     remove_member := λ _, VUndefined;
     to_length := λ _, 0;
     object_key := λ _, "[object Object]";
     inherited := λ name, bool_decide (name ∈ array_members) |}.

Definition two_events : state :=
  (add "y" (VFun (Native 1)) (add "x" (VFun (Native 0)) Listeners).2).2.

(** Event ["x"] with function 2 in slot 0, function 3 in slot 1 and
    function 0 in slot 2. *)
Definition busy_registry : state :=
  apply_ops "x" [OpAdd (Native 2); OpAdd (Native 3); OpAdd (Native 0)]
    Listeners.

(** Event ["x"] with function 0, which vetoes, ahead of function 3. *)
Definition veto_first : state :=
  apply_ops "x" [OpAdd (Native 0); OpAdd (Native 3)] Listeners.


(** A payload with the positional marker and an argument list. *)
Definition positional_payload : value :=
  VObj [("params", VBool true); ("data", VArr [VNum 1; VStr "two"])].

(** A payload with the positional marker and no argument list. *)
Definition marker_only : value := VObj [("params", VBool true)].

(** The reading in which the invocation mode depends on the marker and an
    argument list together, as the design document words it. *)
Definition marker_with_list (data : value) : bool :=
  is_true (get_field data "params")
  && match get_field data "data" with VArr _ => true | _ => false end.

Definition mode_as_documented (data : value) (c : invocation) : Prop :=
  if marker_with_list data
  then get_field data "data" = VArr (inv_args c)
  else inv_args c = [data].

(** The closure [createMenuAction] returns when it is the [serial]-th
    closure created. *)
Definition adapter (serial : nat) (func : value) : fn :=
  match func with
  | VFun f => MenuAction serial f
  | _ => Noop serial
  end.

(** The adapters of the actions whose returned name is [event], in order;
    the first action's adapter is closure number [serial]. *)
Fixpoint adapters_for (event : string) (serial : nat) (names : list string)
  (acts : list action) : list value :=
  match names, acts with
  | name :: names', a :: acts' =>
      (if decide (name = event) then [VFun (adapter serial (callback a))]
       else [])
      ++ adapters_for event (S serial) names' acts'
  | _, _ => []
  end.

(** Every function records its first argument by adding it under the event
    type ["seen"], and returns nothing. *)
Definition recording_engine : engine :=
  {| fn_body := λ _ args,
       CallAdd "seen" (nth 0 args VUndefined) (λ _, Return VUndefined);
     remove_member := λ _, VUndefined;
     to_length := λ _, 0;
     object_key := λ _, "[object Object]";
     inherited := λ name, bool_decide (name ∈ array_members) |}.

Definition three_actions : group :=
  {| app := VStr "demo"; label := VStr "group"; icon := VUndefined;
     actions :=
       [ {| action_label := VStr "one"; action_icon := VUndefined;
            callback := VFun (Native 1) |};
         {| action_label := VStr "two"; action_icon := VUndefined;
            callback := VFun (Native 2) |};
         {| action_label := VStr "three"; action_icon := VUndefined;
            callback := VFun (Native 3) |} ] |}.

(** Function 0 throws; every other function returns nothing. *)
Definition throwing_engine : engine :=
  {| fn_body := λ id _,
       match id with
       | 0 => Raise (VStr "boom")
       | _ => Return VUndefined
       end;
     remove_member := λ _, VUndefined;
     to_length := λ _, 0;
     object_key := λ _, "[object Object]";
     inherited := λ name, bool_decide (name ∈ array_members) |}.

(** A payload with the positional marker whose [data] is a number. *)
Definition primitive_list_payload : value :=
  VObj [("params", VBool true); ("data", VNum 5)].

(** A payload as a menu action receives it. *)
Definition id_payload : value := VObj [("id", VStr "el-7")].

(** Event ["m"] with the adapter of function 0 as its only slot. *)
Definition menu_registry : state :=
  (add "m" (VFun (MenuAction 0 (Native 0))) Listeners).2.

(** The closures [createMenuAction] builds. *)
Definition is_menu_closure (f : fn) : bool :=
  match f with
  | Native _ => false
  | MenuAction _ _ | Noop _ => true
  end.

(** [data.data] is a boolean, a number or a string. *)
Definition argument_list_is_primitive (data : value) : bool :=
  match get_field data "data" with
  | VBool _ | VNum _ | VStr _ => true
  | _ => false
  end.

(** What the notification of ["x"] in [veto_first] does when function 0
    registers function 1 and vetoes: the calls, and the registry after. *)
Definition veto_first_calls : list invocation :=
  [{| inv_slot := 0; inv_fn := Native 0;
      inv_args := [VNull]; inv_result := VBool false |};
   {| inv_slot := 1; inv_fn := Native 3;
      inv_args := [VNull]; inv_result := VBool true |}].

Definition veto_first_after : state :=
  (add "x" (VFun (Native 1)) veto_first).2.



(** The call of a positional notification of ["x"] in [two_events]. *)
Definition positional_calls : list invocation :=
  [{| inv_slot := 0; inv_fn := Native 0;
      inv_args := [VNum 1; VStr "two"]; inv_result := VUndefined |}].

(** Event ["x"] with function 3 ahead of function 0. *)
Definition throw_second : state :=
  apply_ops "x" [OpAdd (Native 3); OpAdd (Native 0)] Listeners.

(** ** Properties of the registry operations *)

Section registry.
Context (E : engine).

Lemma remove_listeners event index st :
  listeners (remove event index st) = listeners st.
Proof.
  unfold remove. destruct (listeners st !! event); [|done].
  by destruct (is_undefined _).
Qed.

Lemma remove_array_length event index st r :
  length (array_at (remove event index st) r) = length (array_at st r).
Proof.
  unfold remove. destruct (listeners st !! event) as [r'|]; [|done].
  destruct (is_undefined _); [done|].
  unfold array_at, set_array; simpl.
  destruct (decide (r = r')) as [->|Hne].
  - destruct (arrays st !! r') as [a|] eqn:Ha.
    + rewrite list_lookup_insert_eq by (by eapply lookup_lt_Some).
      simpl. by rewrite length_insert.
    + rewrite list_insert_ge by (by apply lookup_ge_None). by rewrite Ha.
  - by rewrite list_lookup_insert_ne.
Qed.

Lemma remove_arrays_length event index st :
  length (arrays (remove event index st)) = length (arrays st).
Proof.
  unfold remove. destruct (listeners st !! event); [|done].
  destruct (is_undefined _); [done|]. simpl. by rewrite length_insert.
Qed.

Lemma add_index event cb st :
  (add event cb st).1 = length (slots st event).
Proof.
  unfold add, slots, bind_fresh.
  destruct (listeners st !! event) as [r|]; simpl; [done|].
  unfold array_at; simpl.
  by rewrite lookup_app_r, Nat.sub_diag by lia.
Qed.

Lemma slots_remove_length event index st ev :
  length (slots (remove event index st) ev) = length (slots st ev).
Proof.
  unfold slots. rewrite remove_listeners.
  destruct (listeners st !! ev); [|done]. apply remove_array_length.
Qed.

Lemma slots_remove_other event index st (j : nat) :
  Z.of_nat j ≠ index →
  slots (remove event index st) event !! j = slots st event !! j.
Proof.
  intros Hj. unfold slots. rewrite remove_listeners.
  unfold remove. destruct (listeners st !! event) as [r|] eqn:Hr; [|done].
  destruct (is_undefined _) eqn:Hu; [done|].
  unfold array_at, set_array; simpl.
  destruct (arrays st !! r) as [a|] eqn:Ha.
  - rewrite list_lookup_insert_eq by (by eapply lookup_lt_Some). simpl.
    destruct (decide (Z.to_nat index = j)) as [<-|Hne];
      [|by rewrite list_lookup_insert_ne].
    unfold element in Hu. destruct (index <? 0)%Z eqn:Hneg; [done|].
    apply Z.ltb_ge in Hneg. lia.
  - rewrite list_insert_ge by (by apply lookup_ge_None). by rewrite Ha.
Qed.

Lemma removeAll_named_keeps_others (event : value) st ev :
  truthy event = true → ev ≠ to_key E event →
  slots (removeAll E event st) ev = slots st ev.
Proof.
  intros Ht Hne. unfold removeAll, slots, bind_fresh. rewrite Ht. simpl.
  rewrite lookup_insert_ne by done.
  destruct (listeners st !! ev) as [r|] eqn:Hr; [|done].
  unfold array_at; simpl.
  destruct (arrays st !! r) as [a|] eqn:Ha.
  - by rewrite (lookup_app_l_Some _ _ _ _ Ha).
  - apply lookup_ge_None in Ha.
    destruct (decide (r = length (arrays st))) as [->|Hr'].
    + by rewrite lookup_app_r, Nat.sub_diag by lia.
    + rewrite lookup_ge_None_2; [done|]. rewrite length_app. simpl. lia.
Qed.

(** C10. [removeAll] called with a falsy event type, the empty string as
    much as [undefined] (the omitted argument), [null], [false] or [0],
    empties the whole dictionary: afterwards no event type has a slot. *)
Theorem removeAll_falsy_clears_registry (event : value) st :
  truthy event = false →
  listeners (removeAll E event st) = ∅ ∧
  ∀ ev, slots (removeAll E event st) ev = [].
Proof.
  intros Hf. unfold removeAll. rewrite Hf. simpl. split; [done|].
  intros ev. unfold slots. simpl. by rewrite lookup_empty.
Qed.

End registry.

Lemma removeAll_falsy_clears_registry_witness :
  slots two_events "y" = [VFun (Native 1)] ∧
  listeners (removeAll (constant_engine VUndefined) (VStr EmptyString) two_events) = ∅ ∧
  ∀ ev, slots (removeAll (constant_engine VUndefined) (VStr EmptyString) two_events) ev
        = [].
Proof.
  split; [reflexivity|].
  apply (removeAll_falsy_clears_registry (constant_engine VUndefined)
           (VStr EmptyString) two_events).
  reflexivity.
Defined.

(** ** How the store of array objects evolves *)

Section evolution.
Context (E : engine).

Lemma evolved_refl a : evolved a a.
Proof. split; [done|]. intros i v Hi. by left. Qed.

Lemma evolved_trans a b c : evolved a b → evolved b c → evolved a c.
Proof.
  intros [Hl1 H1] [Hl2 H2]. split; [lia|].
  intros i v Hi. destruct (H1 i v Hi) as [Hb|Hb].
  - by apply H2.
  - destruct (H2 _ _ Hb) as [Hc|Hc]; by right.
Qed.

Lemma grows_refl st : grows st st.
Proof. split; [done|]. intros r _. apply evolved_refl. Qed.

Lemma grows_trans st1 st2 st3 : grows st1 st2 → grows st2 st3 → grows st1 st3.
Proof.
  intros [Hl1 H1] [Hl2 H2]. split; [lia|].
  intros r Hr. eapply evolved_trans; [by apply H1|]. apply H2. lia.
Qed.

Lemma grows_same_arrays st st' : arrays st' = arrays st → grows st st'.
Proof.
  intros Heq. unfold grows, array_at. rewrite Heq. split; [done|].
  intros r _. apply evolved_refl.
Qed.

Lemma array_at_set_array_eq r a st :
  r < length (arrays st) → array_at (set_array r a st) r = a.
Proof.
  intros Hr. unfold array_at, set_array; simpl.
  by rewrite list_lookup_insert_eq.
Qed.

Lemma array_at_set_array_ne r r' a st :
  r ≠ r' → array_at (set_array r a st) r' = array_at st r'.
Proof.
  intros Hr. unfold array_at, set_array; simpl.
  by rewrite list_lookup_insert_ne.
Qed.

Lemma grows_set_array r a st :
  evolved (array_at st r) a → grows st (set_array r a st).
Proof.
  intros Hev. split; [simpl; by rewrite length_insert|].
  intros r' Hr'. destruct (decide (r = r')) as [->|Hne].
  - by rewrite array_at_set_array_eq.
  - rewrite array_at_set_array_ne by done. apply evolved_refl.
Qed.

Lemma array_at_bind_fresh_old event st r :
  r < length (arrays st) →
  array_at (bind_fresh event st).2 r = array_at st r.
Proof.
  intros Hr. unfold array_at, bind_fresh; simpl.
  by rewrite lookup_app_l.
Qed.

Lemma array_at_bind_fresh_new event st :
  array_at (bind_fresh event st).2 (bind_fresh event st).1 = [].
Proof.
  unfold array_at, bind_fresh; simpl.
  by rewrite lookup_app_r, Nat.sub_diag by lia.
Qed.

Lemma grows_bind_fresh event st : grows st (bind_fresh event st).2.
Proof.
  split; [simpl; rewrite length_app; lia|].
  intros r Hr. rewrite array_at_bind_fresh_old by done. apply evolved_refl.
Qed.

Lemma evolved_snoc a v : evolved a (a ++ [v]).
Proof.
  split; [rewrite length_app; lia|].
  intros i w Hi. left. by apply lookup_app_l_Some.
Qed.

Lemma evolved_tombstone a n : evolved a (<[n := VBool false]> a).
Proof.
  split; [by rewrite length_insert|].
  intros i v Hi. destruct (decide (n = i)) as [->|Hne].
  - right. apply list_lookup_insert_eq. by eapply lookup_lt_Some.
  - left. by rewrite list_lookup_insert_ne.
Qed.

Lemma grows_add event cb st : grows st (add event cb st).2.
Proof.
  unfold add. destruct (listeners st !! event) as [r|]; simpl.
  - apply grows_set_array, evolved_snoc.
  - eapply grows_trans; [apply (grows_bind_fresh event)|].
    apply grows_set_array, evolved_snoc.
Qed.

Lemma grows_remove event index st : grows st (remove event index st).
Proof.
  unfold remove. destruct (listeners st !! event) as [r|];
    [|apply grows_refl].
  destruct (is_undefined _); [apply grows_refl|].
  apply grows_set_array, evolved_tombstone.
Qed.

Lemma grows_removeAll event st : grows st (removeAll E event st).
Proof.
  unfold removeAll. destruct (negb (truthy event)).
  - by apply grows_same_arrays.
  - apply grows_bind_fresh.
Qed.

Lemma grows_run p : ∀ st v st', run E p st = Ok (v, st') → grows st st'.
Proof.
  induction p as [v|v|event cb k IH|event index k IH|event k IH];
    intros st w st' Hrun; simpl in Hrun.
  - injection Hrun as _ <-. apply grows_refl.
  - discriminate.
  - destruct (add event cb st) as [index st1] eqn:Hadd.
    eapply grows_trans; [|by eapply IH].
    replace st1 with (add event cb st).2 by (by rewrite Hadd).
    apply grows_add.
  - eapply grows_trans; [apply (grows_remove event index)|by eapply IH].
  - eapply grows_trans; [apply (grows_removeAll event)|by eapply IH].
Qed.

Lemma call_menu_action serial func args st :
  call E (MenuAction serial func) args st =
  match nth 0 args VUndefined with
  | VUndefined | VNull => Throw TypeError st
  | data =>
      '(_, st1) ← call E func [get_field data "id"] st;
      Ok (VUndefined, st1)
  end.
Proof. done. Qed.

Lemma grows_call f : ∀ args st v st',
  call E f args st = Ok (v, st') → grows st st'.
Proof.
  induction f as [id|serial func IH|serial]; intros args st v st' Hcall.
  - by eapply grows_run.
  - rewrite call_menu_action in Hcall.
    destruct (nth 0 args VUndefined); try discriminate;
      (destruct (call E func _ st) as [[w st1]|e] eqn:Hin; simpl in Hcall;
       [injection Hcall as _ <-; by eapply IH | discriminate]).
  - injection Hcall as _ <-. apply grows_refl.
Qed.

Lemma invoke_Ok data f st args r st' :
  invoke E data f st = Ok (args, r, st') →
  call E f args st = Ok (r, st') ∧
  (if positional data
   then create_list_from_array_like E (get_field data "data") = Some args
   else args = [data]).
Proof.
  unfold invoke. destruct (positional data).
  - destruct (create_list_from_array_like E _) as [l|]; simpl; [|done].
    destruct (call E f l st) as [[w s]|e] eqn:Hc; simpl; [|done].
    intros [= <- <- <-]. by rewrite Hc.
  - destruct (call E f [data] st) as [[w s]|e] eqn:Hc; simpl; [|done].
    by intros [= <- <- <-].
Qed.

Lemma grows_invoke data f st args r st' :
  invoke E data f st = Ok (args, r, st') → grows st st'.
Proof. intros [Hc _]%invoke_Ok. by eapply grows_call. Qed.

End evolution.

(** ** The notification pass *)

Section notification.
Context (E : engine).

Lemma element_nat a (i : nat) :
  element a (Z.of_nat i) = default VUndefined (a !! i).
Proof.
  unfold element. destruct (Z.of_nat i <? 0)%Z eqn:Hneg.
  - apply Z.ltb_lt in Hneg. lia.
  - by rewrite Nat2Z.id.
Qed.

Lemma notify_each_Ok data i e acc st v acc1 st1 :
  notify_each E data i e acc st = Ok (v, acc1, st1) →
  v = VUndefined ∧
  ((∃ f args r, e = VFun f ∧ invoke E data f st = Ok (args, r, st1) ∧
      acc1 = (if is_false r then false else acc.1,
              acc.2 ++ [{| inv_slot := i; inv_fn := f;
                           inv_args := args; inv_result := r |}]))
   ∨ (is_function e = false ∧ acc1 = acc ∧ st1 = st)).
Proof.
  unfold notify_each. destruct e as [| |b|n|s|f|l|l];
    try (intros [= <- <- <-]; split; [done|]; by right).
  destruct (invoke E data f st) as [[[args r] st2]|err] eqn:Hinv;
    simpl; [|done].
  intros [= <- <- <-]. split; [done|]. left. by exists f, args, r.
Qed.

(** The loop of [notify] from slot [i] on, [count] slots to go, in a pass
    that started in state [st0]. *)
Lemma each_from_notify r data st0 :
  r < length (arrays st0) →
  ∀ count i acc st acc' st',
    grows st0 st →
    i + count ≤ length (array_at st0 r) →
    each_from r (notify_each E data) i count acc st = Ok (acc', st') →
    ∃ new,
      acc'.2 = acc.2 ++ new ∧
      acc'.1 = acc.1 && forallb allows new ∧
      Forall (λ c, i ≤ inv_slot c ∧
                   array_at st0 r !! inv_slot c = Some (VFun (inv_fn c)) ∧
                   mode_ok E data c) new ∧
      StronglySorted lt (inv_slot <$> new) ∧
      grows st0 st'.
Proof.
  intros Hr. induction count as [|count IH];
    intros i acc st acc' st' Hg Hlen Hloop; simpl in Hloop.
  - injection Hloop as <- <-. exists []. rewrite app_nil_r, andb_true_r.
    split; [done|]. split; [done|]. split; [constructor|].
    split; [constructor|done].
  - destruct (notify_each E data i _ acc st) as [[[v acc1] st1]|err]
      eqn:Hstep; simpl in Hloop; [|done].
    apply notify_each_Ok in Hstep as [-> Hstep]. simpl in Hloop.
    destruct Hstep as [(f & args & res & He & Hinv & ->)|(_ & -> & ->)].
    + assert (grows st0 st1) as Hg1.
      { eapply grows_trans; [done|]. by eapply grows_invoke. }
      destruct (IH (S i) _ st1 acc' st' Hg1 ltac:(lia) Hloop)
        as (new & Hlog & Hret & Hall & Hsort & Hg').
      simpl in Hlog, Hret.
      exists ({| inv_slot := i; inv_fn := f; inv_args := args;
                 inv_result := res |} :: new).
      split; [by rewrite Hlog, <- app_assoc|].
      split.
      { rewrite Hret. unfold allows. simpl.
        destruct (is_false res), (acc.1); done. }
      split; [|split; [|done]].
      * constructor.
        -- simpl. split; [done|]. split.
           ++ rewrite element_nat in He.
              destruct Hg as [_ Hev]. destruct (Hev r Hr) as [_ Hslots].
              destruct (array_at st0 r !! i) as [v0|] eqn:H0.
              ** destruct (Hslots i v0 H0) as [H1|H1];
                   rewrite H1 in He; simpl in He; congruence.
              ** apply lookup_ge_None in H0. lia.
           ++ apply invoke_Ok in Hinv as [_ Hmode]. unfold mode_ok. simpl.
              done.
        -- eapply Forall_impl; [exact Hall|]. simpl.
           intros c (? & ? & ?). split; [lia|done].
      * simpl. constructor; [done|].
        rewrite Forall_fmap. eapply Forall_impl; [exact Hall|]. simpl.
        intros c (? & _). lia.
    + destruct (IH (S i) _ st acc' st' Hg ltac:(lia) Hloop)
        as (new & Hlog & Hret & Hall & Hsort & Hg').
      exists new. split; [done|]. split; [done|]. split; [|done].
      eapply Forall_impl; [exact Hall|]. simpl.
      intros c (? & ? & ?). split; [lia|done].
Qed.

Lemma present_at_start st0 st r i f :
  grows st0 st → r < length (arrays st0) → i < length (array_at st0 r) →
  array_at st r !! i = Some (VFun f) →
  array_at st0 r !! i = Some (VFun f).
Proof.
  intros [_ Hev] Hr Hi Hnow. destruct (Hev r Hr) as [_ Hslots].
  destruct (array_at st0 r !! i) as [v0|] eqn:H0.
  - destruct (Hslots i v0 H0) as [H1|H1]; congruence.
  - apply lookup_ge_None in H0. lia.
Qed.

(** The loop does not fail as long as the callbacks that were in the
    array when the pass started return normally. *)
Lemma each_from_notify_returns r data st0 :
  r < length (arrays st0) →
  (∀ f, VFun f ∈ array_at st0 r → returns E data f) →
  ∀ count i acc st,
    grows st0 st →
    i + count ≤ length (array_at st0 r) →
    ∃ out, each_from r (notify_each E data) i count acc st = Ok out.
Proof.
  intros Hr Hret. induction count as [|count IH];
    intros i acc st Hg Hlen; simpl; [by eexists|].
  rewrite element_nat.
  destruct (array_at st r !! i) as [e|] eqn:He; simpl;
    [|by apply IH; [|lia]].
  destruct (is_function e) eqn:Hfun.
  - destruct e as [| | | | |f| |]; try discriminate.
    apply present_at_start with (st0 := st0) in He; [|done|done|lia].
    destruct (Hret f) with (st := st) as [[[args res] st1] Hinv].
    { apply list_elem_of_lookup. by exists i. }
    unfold notify_each. rewrite Hinv. simpl.
    apply IH; [|lia]. eapply grows_trans; [done|]. by eapply grows_invoke.
  - assert (notify_each E data i e acc st = Ok (VUndefined, acc, st)) as ->
      by (by destruct e).
    simpl. apply IH; [done|lia].
Qed.

(** The loop over callbacks that leave the registry alone. *)
Lemma each_from_quiet r data :
  ∀ tail i acc st,
    drop i (array_at st r) = tail →
    (∀ f, VFun f ∈ tail → quiet E data f) →
    ∃ new,
      each_from r (notify_each E data) i (length tail) acc st
        = Ok ((acc.1 && forallb allows new, acc.2 ++ new), st) ∧
      (λ c, (inv_slot c, inv_fn c)) <$> new = active_from i tail.
Proof.
  induction tail as [|e tail IH]; intros i acc st Hdrop Hq; simpl.
  - exists []. rewrite app_nil_r, andb_true_r. by destruct acc.
  - assert (array_at st r !! i = Some e) as He.
    { rewrite <- (Nat.add_0_r i), <- lookup_drop, Hdrop. done. }
    assert (drop (S i) (array_at st r) = tail) as Hdrop'.
    { replace (S i) with (i + 1) by lia.
      by rewrite <- drop_drop, Hdrop. }
    rewrite element_nat, He. simpl.
    destruct (is_function e) eqn:Hfun.
    + destruct e as [| | | | |f| |]; try discriminate.
      destruct (Hq f) with (st := st) as (args & res & Hinv);
        [by left|].
      assert (notify_each E data i (VFun f) acc st
              = Ok (VUndefined,
                    (if is_false res then false else acc.1,
                     acc.2 ++ [{| inv_slot := i; inv_fn := f;
                                  inv_args := args; inv_result := res |}]),
                    st)) as ->
        by (unfold notify_each; by rewrite Hinv).
      simpl.
      destruct (IH (S i)
                  (if is_false res then false else acc.1,
                   acc.2 ++ [{| inv_slot := i; inv_fn := f;
                                inv_args := args; inv_result := res |}])
                  st Hdrop') as (new & Hloop & Hact).
      { intros g Hg. apply Hq. by right. }
      exists ({| inv_slot := i; inv_fn := f; inv_args := args;
                 inv_result := res |} :: new).
      rewrite Hloop. simpl. rewrite <- app_assoc. simpl.
      split; [|f_equal; exact Hact].
      unfold allows at 2. simpl. by destruct (is_false res), (acc.1).
    + assert (notify_each E data i e acc st = Ok (VUndefined, acc, st))
        as -> by (by destruct e).
      simpl.
      destruct (IH (S i) acc st Hdrop') as (new & Hloop & Hact).
      { intros g Hg. apply Hq. by right. }
      exists new. split; [done|]. by destruct e.
Qed.

Lemma notify_safe event data st b log st' :
  notify E event data st = Ok (b, log, st') →
  b = forallb allows log ∧
  Forall (λ c, slots st event !! inv_slot c = Some (VFun (inv_fn c)) ∧
               mode_ok E data c) log ∧
  StronglySorted lt (inv_slot <$> log) ∧
  grows st st'.
Proof.
  unfold notify, slots. destruct (listeners st !! event) as [r|].
  - unfold each.
    destruct (each_from r _ 0 _ (true, []) st) as [[acc st1]|err [acc1 st2]] eqn:Hloop;
      simpl; [|done].
    intros [= <- <- <-].
    destruct (decide (r < length (arrays st))) as [Hr|Hr].
    + apply each_from_notify with (st0 := st) in Hloop
        as (new & Hlog & Hret & Hall & Hsort & Hg);
        [|done|apply grows_refl|simpl; lia].
      simpl in Hlog, Hret. rewrite Hlog. split; [done|].
      split; [|done].
      eapply Forall_impl; [exact Hall|]. simpl. by intros c (_ & ? & ?).
    + assert (array_at st r = []) as Hnil.
      { unfold array_at. rewrite lookup_ge_None_2; [done|lia]. }
      rewrite Hnil in Hloop. simpl in Hloop. injection Hloop as <- <-.
      simpl. split; [done|]. split; [constructor|].
      split; [constructor|apply grows_refl].
  - intros [= <- <- <-]. simpl. split; [done|]. split; [constructor|].
    split; [constructor|apply grows_refl].
Qed.

Lemma notify_returns event data st :
  (∀ f, VFun f ∈ slots st event → returns E data f) →
  ∃ out, notify E event data st = Ok out.
Proof.
  unfold notify, slots. destruct (listeners st !! event) as [r|];
    [|by eexists].
  intros Hret. unfold each.
  destruct (decide (r < length (arrays st))) as [Hr|Hr].
  - destruct (each_from_notify_returns r data st Hr Hret
                (length (array_at st r)) 0 (true, []) st)
      as [[acc st1] ->]; [apply grows_refl|simpl; lia|].
    simpl. by eexists.
  - assert (array_at st r = []) as ->.
    { unfold array_at. rewrite lookup_ge_None_2; [done|lia]. }
    simpl. by eexists.
Qed.

Lemma notify_quiet event data st :
  (∀ f, VFun f ∈ slots st event → quiet E data f) →
  ∃ log,
    notify E event data st = Ok (forallb allows log, log, st) ∧
    (λ c, (inv_slot c, inv_fn c)) <$> log = active st event.
Proof.
  unfold notify, active, slots. destruct (listeners st !! event) as [r|].
  - intros Hq. unfold each.
    destruct (each_from_quiet r data (array_at st r) 0 (true, []) st)
      as (new & Hloop & Hact); [done|done|].
    rewrite Hloop. simpl. by exists new.
  - intros _. by exists [].
Qed.

Lemma replays_app log1 : ∀ log2 st st1 st',
  replays E log1 st st1 → replays E log2 st1 st' →
  replays E (log1 ++ log2) st st'.
Proof.
  induction log1 as [|c log1 IH]; intros log2 st st1 st' H1 H2; simpl in *.
  - by subst st1.
  - destruct H1 as (s & Hcall & H1). exists s. split; [done|].
    by eapply IH.
Qed.

(** The calls the loop records are the calls it made, one after the
    other. *)
Lemma each_from_notify_replays r data : ∀ count i acc st acc' st',
  each_from r (notify_each E data) i count acc st = Ok (acc', st') →
  ∃ new, acc'.2 = acc.2 ++ new ∧ replays E new st st'.
Proof.
  induction count as [|count IH]; intros i acc st acc' st' Hloop;
    simpl in Hloop.
  - injection Hloop as <- <-. exists []. by rewrite app_nil_r.
  - destruct (notify_each E data i _ acc st) as [[[v acc1] st1]|err x]
      eqn:Hstep; simpl in Hloop; [|done].
    apply notify_each_Ok in Hstep as [-> Hstep]. simpl in Hloop.
    destruct Hstep as [(f & args & res & _ & Hinv & ->)|(_ & -> & ->)].
    + destruct (IH _ _ _ _ _ Hloop) as (new & Hlog & Hrep).
      simpl in Hlog.
      exists ({| inv_slot := i; inv_fn := f; inv_args := args;
                 inv_result := res |} :: new).
      split; [by rewrite Hlog, <- app_assoc|].
      simpl. exists st1. split; [|done].
      by apply invoke_Ok in Hinv as [Hcall _].
    + by apply (IH _ _ _ _ _ Hloop).
Qed.

Lemma notify_replays event data st b log st' :
  notify E event data st = Ok (b, log, st') → replays E log st st'.
Proof.
  unfold notify, each. destruct (listeners st !! event) as [r|];
    [|by intros [= _ <- <-]].
  destruct (each_from r _ 0 _ (true, []) st) as [[acc st1]|err [acc1 st2]]
    eqn:Hloop; simpl; [|done].
  intros [= _ <- <-].
  by apply each_from_notify_replays in Hloop as (new & -> & Hrep).
Qed.

(** A function that is in a slot of the array when the loop has ended was
    called when the loop passed that slot. *)
Lemma each_from_notify_complete r data : ∀ count i acc st acc' st',
  r < length (arrays st) →
  i + count ≤ length (array_at st r) →
  each_from r (notify_each E data) i count acc st = Ok (acc', st') →
  ∃ new,
    acc'.2 = acc.2 ++ new ∧
    ∀ j f, i ≤ j < i + count →
           array_at st' r !! j = Some (VFun f) →
           ∃ c, c ∈ new ∧ inv_slot c = j ∧ inv_fn c = f.
Proof.
  induction count as [|count IH]; intros i acc st acc' st' Hr Hlen Hloop.
  - simpl in Hloop. injection Hloop as <- <-. exists [].
    rewrite app_nil_r. split; [done|]. intros j f Hj. lia.
  - pose proof Hloop as Hwhole.
    apply each_from_notify with (st0 := st) in Hwhole
      as (_ & _ & _ & _ & _ & Hgrow); [|done|apply grows_refl|done].
    simpl in Hloop.
    destruct (notify_each E data i _ acc st) as [[[v acc1] st1]|err x]
      eqn:Hstep; simpl in Hloop; [|done].
    apply notify_each_Ok in Hstep as [-> Hstep]. simpl in Hloop.
    assert (grows st st1) as Hg1.
    { destruct Hstep as [(f & args & res & _ & Hinv & _)|(_ & _ & ->)];
        [by eapply grows_invoke|apply grows_refl]. }
    assert (r < length (arrays st1)) as Hr1 by (destruct Hg1; lia).
    assert (S i + count ≤ length (array_at st1 r)) as Hlen1.
    { destruct Hg1 as [_ Hev]. destruct (Hev r Hr) as [Hl _]. lia. }
    destruct (IH (S i) acc1 st1 acc' st' Hr1 Hlen1 Hloop)
      as (new & Hlog & Hrest).
    destruct (array_at st r !! i) as [e|] eqn:He;
      [|apply lookup_ge_None in He; lia].
    rewrite element_nat, He in Hstep. simpl in Hstep.
    destruct Hstep as [(f & args & res & -> & Hinv & ->)|(Hfun & -> & ->)].
    + simpl in Hlog.
      exists ({| inv_slot := i; inv_fn := f; inv_args := args;
                 inv_result := res |} :: new).
      split; [by rewrite Hlog, <- app_assoc|].
      intros j g Hj Hend. destruct (decide (j = i)) as [->|Hne].
      * exists {| inv_slot := i; inv_fn := f; inv_args := args;
                  inv_result := res |}.
        split; [by left|]. split; [done|]. simpl.
        destruct Hgrow as [_ Hev]. destruct (Hev r Hr) as [_ Hslots].
        destruct (Hslots i _ He) as [H1|H1]; congruence.
      * destruct (Hrest j g) as (c & Hc & Hcj); [lia|done|].
        exists c. split; [by right|done].
    + exists new. split; [done|].
      intros j g Hj Hend. destruct (decide (j = i)) as [->|Hne].
      * exfalso. destruct Hgrow as [_ Hev]. destruct (Hev r Hr) as [_ Hslots].
        destruct (Hslots i _ He) as [H1|H1]; rewrite H1 in Hend;
          [injection Hend as ->; done|discriminate].
      * apply Hrest; [lia|done].
Qed.

(** Every callback that was active when the pass began and has not been
    tombstoned when it ends was called in the pass. *)
Lemma notify_complete event data st b log st' :
  notify E event data st = Ok (b, log, st') →
  ∀ j f, still_active st st' event j f →
         ∃ c, c ∈ log ∧ inv_slot c = j ∧ inv_fn c = f.
Proof.
  unfold notify, still_active, slots, each.
  destruct (listeners st !! event) as [r|];
    [|by intros _ j f [? _]].
  destruct (each_from r _ 0 _ (true, []) st) as [[acc st1]|err [acc1 st2]]
    eqn:Hloop; simpl; [|done].
  intros [= _ <- <-] j f [Hstart Hend].
  assert (r < length (arrays st)) as Hr.
  { unfold array_at in Hstart.
    destruct (arrays st !! r) as [a|] eqn:Ha; [by eapply lookup_lt_Some|done]. }
  apply each_from_notify_complete in Hloop as (new & Hlog & Hall);
    [|done|simpl; lia].
  simpl in Hlog. rewrite Hlog. apply Hall; [|by apply Hend].
  apply lookup_lt_Some in Hstart. lia.
Qed.

End notification.

(** ** Properties of [notify] *)

Section notify_properties.
Context (E : engine).

Lemma is_false_spec v : is_false v = true ↔ v = VBool false.
Proof. destruct v as [| |[]| | | | |]; simpl; split; congruence. Qed.

Lemma forallb_allows_false log :
  forallb allows log = false ↔
  ∃ c, c ∈ log ∧ inv_result c = VBool false.
Proof.
  induction log as [|c log IH]; simpl.
  - split; [done|]. intros (c & Hc & _). by apply elem_of_nil in Hc.
  - rewrite andb_false_iff, IH. unfold allows.
    rewrite negb_false_iff, is_false_spec. split.
    + intros [Hc|(c' & Hin & Hc')]; [exists c|exists c']; split;
        try done; by constructor.
    + intros (c' & Hin & Hc'). apply elem_of_cons in Hin as [->|Hin];
        [by left|right; by exists c'].
Qed.

Lemma positional_spec data :
  positional data = true ↔ get_field data "params" = VBool true.
Proof.
  unfold positional. split.
  - intros [[_ _]%andb_true_iff Ht]%andb_true_iff.
    by destruct (get_field data "params") as [| |[]| | | | |].
  - intros Hp. rewrite Hp. simpl. destruct data; simpl in *; congruence.
Qed.

(** C4. When the callbacks registered for the event type return normally,
    [notify] returns a boolean, and it is [false] exactly when one of the
    calls it made returned the literal [false], wherever in the pass that
    happened.  The calls it made are calls of callbacks active for that
    event type, made one after the other as the log records them, and
    every callback that was active when the pass began and has not been
    tombstoned when it ends is among them.  With no callback registered it
    returns [true] and changes nothing. *)
Theorem notify_false_iff_veto event data st :
  ((∀ f, VFun f ∈ slots st event → returns E data f) →
   ∃ b log st',
     notify E event data st = Ok (b, log, st') ∧
     (b = false ↔ ∃ c, c ∈ log ∧ inv_result c = VBool false) ∧
     (∀ c, c ∈ log →
           slots st event !! inv_slot c = Some (VFun (inv_fn c))) ∧
     replays E log st st' ∧
     (∀ j f, still_active st st' event j f →
             ∃ c, c ∈ log ∧ inv_slot c = j ∧ inv_fn c = f)) ∧
  ((∀ f, VFun f ∉ slots st event) →
   notify E event data st = Ok (true, [], st)).
Proof.
  split.
  - intros Hret.
    destruct (notify_returns E event data st Hret) as [[[b log] st'] Hn].
    exists b, log, st'. split; [done|].
    pose proof (notify_replays E _ _ _ _ _ _ Hn) as Hrep.
    pose proof (notify_complete E _ _ _ _ _ _ Hn) as Hcomplete.
    apply notify_safe in Hn as (-> & Hall & _ & _).
    split; [apply forallb_allows_false|].
    split; [|done].
    intros c Hc. rewrite Forall_forall in Hall. by apply Hall.
  - intros Hnone.
    destruct (notify_quiet E event data st) as (log & Hn & Hact).
    { intros f Hf. by apply Hnone in Hf. }
    assert (log = []) as ->; [|done].
    destruct log as [|c log]; [done|].
    apply notify_safe in Hn as (_ & Hall & _ & _).
    apply Forall_cons in Hall as [[Hc _] _].
    exfalso. apply (Hnone (inv_fn c)).
    apply list_elem_of_lookup. by eexists.
Qed.

(** C6, as the code has it.  The mode depends on the marker alone: when
    [data.params] is the literal [true], every call [notify] makes is
    given the argument list built from [data.data] (its elements when it
    is an array, no argument when it is absent or [null]); in every other
    case each call is given [data] itself as its single argument.  The
    calls recorded are the calls made: the pass takes the registry from
    its state before to its state after through exactly these calls, with
    these arguments. *)
Theorem notify_invocation_mode event data st b log st' :
  notify E event data st = Ok (b, log, st') →
  replays E log st st' ∧
  ∀ c, c ∈ log →
    (get_field data "params" = VBool true →
     create_list_from_array_like E (get_field data "data")
       = Some (inv_args c) ∧
     (∀ l, get_field data "data" = VArr l → inv_args c = l) ∧
     (get_field data "data" = VUndefined → inv_args c = [])) ∧
    (get_field data "params" ≠ VBool true → inv_args c = [data]).
Proof.
  intros Hn. split; [by eapply notify_replays|].
  apply notify_safe in Hn as (_ & Hall & _ & _). intros c Hc.
  rewrite Forall_forall in Hall. destruct (Hall c Hc) as [_ Hmode].
  unfold mode_ok in Hmode. split.
  - intros Hp. apply positional_spec in Hp. rewrite Hp in Hmode.
    split; [done|]. split.
    + intros l Hl. rewrite Hl in Hmode. simpl in Hmode. congruence.
    + intros Hu. rewrite Hu in Hmode. simpl in Hmode. congruence.
  - intros Hp. destruct (positional data) eqn:Hpos; [|done].
    by apply positional_spec in Hpos.
Qed.

(** C9. A pass of [notify] over callbacks that return normally runs to
    its end, whatever they add to or remove from the registry on the way.
    Every call it makes is to a function that was in that very slot when
    the pass started; slots are visited in increasing order, each at most
    once; no slot beyond the length the sequence had at the start, and so
    no callback added during the pass, is called. *)
Theorem notify_snapshot event data st :
  (∀ f, VFun f ∈ slots st event → returns E data f) →
  ∃ b log st',
    notify E event data st = Ok (b, log, st') ∧
    Forall (λ c, slots st event !! inv_slot c = Some (VFun (inv_fn c))) log ∧
    StronglySorted lt (inv_slot <$> log) ∧
    (∀ c, c ∈ log → inv_slot c < length (slots st event)) ∧
    grows st st'.
Proof.
  intros Hret.
  destruct (notify_returns E event data st Hret) as [[[b log] st'] Hn].
  exists b, log, st'. split; [done|].
  apply notify_safe in Hn as (_ & Hall & Hsort & Hg).
  split; [by eapply Forall_impl; [exact Hall|]; intros c [? _]|].
  split; [done|]. split; [|done].
  intros c Hc. rewrite Forall_forall in Hall.
  destruct (Hall c Hc) as [Hslot _]. by eapply lookup_lt_Some.
Qed.

End notify_properties.

(** ** Sequences of [add] and [remove] against the documented reading *)

Section sequences.
Context (E : engine).

Lemma wf_Listeners : wf Listeners.
Proof. split; intros *; simpl; by rewrite lookup_empty. Qed.

Lemma wf_set_array r a st : wf st → wf (set_array r a st).
Proof.
  intros [Hb Hi]. split; simpl; [|done].
  intros event r' Hr'. rewrite length_insert. by eapply Hb.
Qed.

Lemma wf_bind_fresh event st : wf st → wf (bind_fresh event st).2.
Proof.
  intros [Hb Hi]. split; simpl.
  - intros ev r. rewrite length_app. simpl.
    destruct (decide (event = ev)) as [->|Hne].
    + rewrite lookup_insert_eq. intros [= <-]. lia.
    + rewrite lookup_insert_ne by done. intros Hr%Hb. lia.
  - intros e1 e2 r. rewrite !lookup_insert.
    repeat case_decide; intros H1 H2; simplify_eq; try done.
    + apply Hb in H2. lia.
    + apply Hb in H1. lia.
    + by eapply Hi.
Qed.

Lemma wf_add event cb st : wf st → wf (add event cb st).2.
Proof.
  intros Hwf. unfold add. destruct (listeners st !! event) as [r|].
  - by apply wf_set_array.
  - simpl. by apply wf_set_array, wf_bind_fresh.
Qed.

Lemma wf_remove event index st : wf st → wf (remove event index st).
Proof.
  intros Hwf. unfold remove. destruct (listeners st !! event); [|done].
  destruct (is_undefined _); [done|]. by apply wf_set_array.
Qed.

Lemma wf_removeAll event st : wf st → wf (removeAll E event st).
Proof.
  intros Hwf. unfold removeAll. destruct (negb (truthy event)).
  - split; intros *; simpl; by rewrite lookup_empty.
  - by apply wf_bind_fresh.
Qed.

Lemma wf_run p : ∀ st v st', wf st → run E p st = Ok (v, st') → wf st'.
Proof.
  induction p as [v|v|event cb k IH|event index k IH|event k IH];
    intros st w st' Hwf Hrun; simpl in Hrun.
  - by injection Hrun as _ <-.
  - discriminate.
  - destruct (add event cb st) as [index st1] eqn:Hadd.
    eapply IH; [|done].
    replace st1 with (add event cb st).2 by (by rewrite Hadd).
    by apply wf_add.
  - eapply IH; [|done]. by apply wf_remove.
  - eapply IH; [|done]. by apply wf_removeAll.
Qed.

Lemma wf_call f : ∀ args st v st',
  wf st → call E f args st = Ok (v, st') → wf st'.
Proof.
  induction f as [id|serial func IH|serial]; intros args st v st' Hwf Hcall.
  - by eapply wf_run.
  - rewrite call_menu_action in Hcall.
    destruct (nth 0 args VUndefined); try discriminate;
      (destruct (call E func _ st) as [[w st1]|e] eqn:Hin; simpl in Hcall;
       [injection Hcall as _ <-; by eapply IH | discriminate]).
  - by injection Hcall as _ <-.
Qed.

Lemma wf_each_from_notify r data : ∀ count i acc st acc' st',
  wf st →
  each_from r (notify_each E data) i count acc st = Ok (acc', st') →
  wf st'.
Proof.
  induction count as [|count IH]; intros i acc st acc' st' Hwf Hloop;
    simpl in Hloop.
  - by injection Hloop as _ <-.
  - destruct (notify_each E data i _ acc st) as [[[v acc1] st1]|err]
      eqn:Hstep; simpl in Hloop; [|done].
    apply notify_each_Ok in Hstep as [-> Hstep]. simpl in Hloop.
    eapply IH; [|done].
    destruct Hstep as [(f & args & res & _ & Hinv & _)|(_ & _ & ->)];
      [|done].
    apply invoke_Ok in Hinv as [Hcall _]. by eapply wf_call.
Qed.

(** Well-formedness is kept by a notification. *)
Lemma wf_notify event data st b log st' :
  wf st → notify E event data st = Ok (b, log, st') → wf st'.
Proof.
  intros Hwf. unfold notify, each.
  destruct (listeners st !! event) as [r|]; [|by intros [= _ _ <-]].
  destruct (each_from r _ 0 _ (true, []) st) as [[acc st1]|err [acc1 st2]] eqn:Hloop;
    simpl; [|done].
  intros [= _ _ <-]. by eapply wf_each_from_notify.
Qed.

Lemma slots_add_same event v st :
  wf st → slots (add event v st).2 event = slots st event ++ [v].
Proof.
  intros [Hb _]. unfold add, slots.
  destruct (listeners st !! event) as [r|] eqn:Hr; simpl.
  - rewrite Hr. apply array_at_set_array_eq. by eapply Hb.
  - rewrite lookup_insert_eq.
    pose proof (array_at_bind_fresh_new event st) as Hnew.
    simpl in Hnew. rewrite Hnew.
    apply array_at_set_array_eq. simpl. rewrite length_app. simpl. lia.
Qed.

Lemma slots_add_other event ev v st :
  wf st → event ≠ ev → slots (add event v st).2 ev = slots st ev.
Proof.
  intros [Hb Hi] Hne. unfold add, slots.
  destruct (listeners st !! event) as [r|] eqn:Hr; simpl.
  - destruct (listeners st !! ev) as [r'|] eqn:Hr'; [|done].
    apply array_at_set_array_ne. intros ->. by apply Hne, (Hi _ _ r').
  - rewrite lookup_insert_ne by done.
    destruct (listeners st !! ev) as [r'|] eqn:Hr'; [|done].
    apply Hb in Hr'. rewrite array_at_set_array_ne by lia.
    by apply (array_at_bind_fresh_old event).
Qed.

Lemma slots_remove event index st :
  slots (remove event index st) event =
  if is_undefined (element (slots st event) index) then slots st event
  else <[Z.to_nat index := VBool false]> (slots st event).
Proof.
  unfold slots at 1. rewrite remove_listeners. unfold remove, slots.
  destruct (listeners st !! event) as [r|] eqn:Hr.
  2: { unfold element. rewrite lookup_nil. by destruct (index <? 0)%Z. }
  destruct (is_undefined _) eqn:Hu; [done|].
  apply array_at_set_array_eq.
  destruct (decide (r < length (arrays st))) as [|Hge]; [done|].
  unfold array_at in Hu. rewrite lookup_ge_None_2 in Hu by lia.
  unfold element in Hu. simpl in Hu. by destruct (index <? 0)%Z.
Qed.











Lemma slots_remove_other_event event index st ev :
  wf st → ev ≠ event → slots (remove event index st) ev = slots st ev.
Proof.
  intros [_ Hi] Hne. unfold slots. rewrite remove_listeners. unfold remove.
  destruct (listeners st !! event) as [r|] eqn:Hr; [|done].
  destruct (is_undefined _); [done|].
  destruct (listeners st !! ev) as [r'|] eqn:Hr'; [|done].
  apply array_at_set_array_ne. intros ->. by apply Hne, (Hi _ _ r').
Qed.

(** C7. Tombstoning a slot leaves the index a later [add] returns as it
    was, for every event type.  It leaves every sibling slot of the event
    type where it is and changes the length of no slot sequence; in a
    well-formed registry the slots of the other event types are untouched
    as well. *)
Theorem remove_keeps_indices event index st :
  (∀ ev cb, (add ev cb (remove event index st)).1 = (add ev cb st).1) ∧
  (∀ j : nat, Z.of_nat j ≠ index →
     slots (remove event index st) event !! j = slots st event !! j) ∧
  (∀ ev, length (slots (remove event index st) ev) = length (slots st ev)) ∧
  (wf st → ∀ ev, ev ≠ event →
     slots (remove event index st) ev = slots st ev).
Proof.
  split; [|split; [|split]].
  - intros ev cb. by rewrite !add_index, slots_remove_length.
  - intros j Hj. by apply slots_remove_other.
  - intros ev. apply slots_remove_length.
  - intros Hwf ev Hne. by apply slots_remove_other_event.
Qed.

End sequences.

(** ** Properties of [removeByCallback] *)

Section by_callback.
Context (E : engine).

(** The loop of [removeByCallback] for a function that has no [remove]
    member to call. *)
Lemma each_from_removeByCallback r event callback :
  is_function (member_remove E callback) = false →
  ∀ count i st,
    each_from r (removeByCallback_each E event callback) i count tt st =
    if existsb (λ e, same_function e callback)
         (take count (drop i (array_at st r)))
    then Throw TypeError (tt, st) else Ok (tt, st).
Proof.
  intros Hm. induction count as [|count IH]; intros i st; simpl; [done|].
  rewrite element_nat.
  destruct (array_at st r !! i) as [e|] eqn:He; simpl.
  - rewrite (drop_S _ _ _ He). simpl.
    destruct (same_function e callback) eqn:Hs; simpl.
    + assert (removeByCallback_each E event callback i e () st
              = Throw TypeError ((), st)) as ->; [|done].
      unfold removeByCallback_each. rewrite Hs.
      by destruct (member_remove E callback).
    + assert (removeByCallback_each E event callback i e () st
              = Ok (VUndefined, (), st)) as ->
        by (unfold removeByCallback_each; by rewrite Hs).
      simpl. apply IH.
  - rewrite drop_ge by (by apply lookup_ge_None). simpl.
    etrans; [apply IH|].
    rewrite drop_ge; [by rewrite take_nil|].
    apply lookup_ge_None in He. lia.
Qed.

(** The loop of [removeByCallback] when no slot holds the function. *)
Lemma each_from_removeByCallback_none r event callback : ∀ count i st,
  existsb (λ e, same_function e callback)
    (take count (drop i (array_at st r))) = false →
  each_from r (removeByCallback_each E event callback) i count tt st
  = Ok (tt, st).
Proof.
  induction count as [|count IH]; intros i st Hnone; simpl; [done|].
  rewrite element_nat.
  destruct (array_at st r !! i) as [e|] eqn:He; simpl.
  - rewrite (drop_S _ _ _ He) in Hnone. simpl in Hnone.
    apply orb_false_iff in Hnone as [Hs Hnone].
    assert (removeByCallback_each E event callback i e () st
            = Ok (VUndefined, (), st)) as ->
      by (unfold removeByCallback_each; by rewrite Hs).
    simpl. by apply IH.
  - etrans; [apply IH|done].
    rewrite drop_ge; [by rewrite take_nil|].
    apply lookup_ge_None in He. lia.
Qed.

(** For a function without a [remove] member, [removeByCallback] ends in
    one of two ways: it throws when a slot holds the function, and
    otherwise returns [false]; either way the registry is as it was. *)
Lemma removeByCallback_outcome event callback st :
  is_function (member_remove E callback) = false →
  removeByCallback E event callback st =
  if existsb (λ e, same_function e callback) (slots st event)
  then Throw TypeError st else Ok (false, st).
Proof.
  intros Hm. unfold removeByCallback, slots, each.
  destruct (listeners st !! event) as [r|]; [|done].
  rewrite each_from_removeByCallback, drop_0, firstn_all by done.
  by destruct (existsb _ _).
Qed.

Lemma removeByCallback_never_true event callback st st' :
  removeByCallback E event callback st ≠ Ok (true, st').
Proof.
  unfold removeByCallback.
  by destruct (each _ _ _ _) as [[[] st1]|err [[] st1]].
Qed.

End by_callback.

(** C8, at a registered callback.  With function 0, which has no [remove]
    member, registered for ["x"], [removeByCallback("x", f0)] throws a
    [TypeError]: it neither returns [true] nor tombstones the slot, the
    registry being as it was when the exception is thrown. *)
Theorem removeByCallback_registered_throws :
  slots two_events "x" = [VFun (Native 0)] ∧
  removeByCallback (constant_engine VUndefined) "x" (Native 0) two_events
  = Throw TypeError two_events.
Proof. split; reflexivity. Qed.

(** ** Properties of [registerMenuActionGroup] *)

Section menu_action_group.
Context (E : engine).

(** C1. When the host answers with a list whose length differs from the
    number of submitted actions, the reply handler leaves the registry
    exactly as it was and makes no call to the completion callback. *)
Theorem registerMenuActionGroup_mismatch g completion typeNames st :
  length typeNames ≠ length (actions g) →
  request_callback (registerMenuActionGroup g completion) E typeNames st
  = Ok ([], st).
Proof.
  intros Hne. simpl. unfold reply.
  by rewrite (proj2 (Nat.eqb_neq _ _) Hne).
Qed.

(** C3, as the code has it.  The payload handed to the request primitive
    is the group descriptor it was given, unchanged: it carries a callback
    function exactly when one of the submitted actions does. *)
Theorem registerMenuActionGroup_payload g completion :
  request_action (registerMenuActionGroup g completion)
    = "register-menu-action-group" ∧
  request_payload (registerMenuActionGroup g completion) = g ∧
  (carries_callback (request_payload (registerMenuActionGroup g completion))
     = true ↔
   ∃ a f, a ∈ actions g ∧ callback a = VFun f).
Proof.
  split; [done|]. split; [done|]. simpl. unfold carries_callback.
  rewrite existsb_exists. split.
  - intros (a & Hin%list_elem_of_In & Hf).
    destruct (callback a) as [| | | | |f| |] eqn:Hc; try done.
    by exists a, f.
  - intros (a & f & Hin & Hc). exists a.
    split; [by apply list_elem_of_In|]. by rewrite Hc.
Qed.

Lemma slots_createMenuAction func st event :
  slots (createMenuAction func st).2 event = slots st event.
Proof. unfold createMenuAction. by destruct func. Qed.

Lemma wf_createMenuAction func st : wf st → wf (createMenuAction func st).2.
Proof. unfold createMenuAction. by destruct func. Qed.

Lemma createMenuAction_adapter func st :
  (createMenuAction func st).1 = adapter (closures st) func ∧
  closures (createMenuAction func st).2 = S (closures st).
Proof. unfold createMenuAction. by destruct func. Qed.

Lemma closures_add event cb st : closures (add event cb st).2 = closures st.
Proof. unfold add. by destruct (listeners st !! event). Qed.

(** The registration loop from action [i] on. *)
Lemma register_from_slots acts : ∀ names i st,
  wf st →
  i + length names ≤ length acts →
  ∃ st1,
    register_from acts i names st = Ok st1 ∧
    wf st1 ∧
    ∀ event, slots st1 event =
             slots st event
             ++ adapters_for event (closures st) names (drop i acts).
Proof.
  induction names as [|name names IH]; intros i st Hwf Hlen; simpl.
  - exists st. split; [done|]. split; [done|].
    intros event. by rewrite app_nil_r.
  - simpl in Hlen.
    destruct (acts !! i) as [a|] eqn:Ha;
      [|apply lookup_ge_None in Ha; lia].
    rewrite (drop_S _ _ _ Ha).
    destruct (createMenuAction (callback a) st) as [m st_c] eqn:Hc.
    pose proof (createMenuAction_adapter (callback a) st) as [Hm Hser].
    pose proof (wf_createMenuAction (callback a) st Hwf) as Hwf_c.
    pose proof (slots_createMenuAction (callback a) st) as Hslots_c.
    rewrite Hc in Hm, Hser, Hwf_c, Hslots_c. simpl in *. subst m.
    destruct (add name (VFun (adapter (closures st) (callback a))) st_c)
      as [index st2] eqn:Hadd.
    assert (st2 = (add name (VFun (adapter (closures st) (callback a)))
                     st_c).2) as Hst2 by (by rewrite Hadd).
    destruct (IH (S i) st2) as (st1 & Hloop & Hwf1 & Hslots);
      [subst st2; by apply wf_add|lia|].
    exists st1. split; [done|]. split; [done|].
    intros event. rewrite Hslots.
    assert (closures st2 = S (closures st)) as ->
      by (by rewrite Hst2, closures_add).
    rewrite app_assoc. f_equal. rewrite Hst2.
    destruct (decide (name = event)) as [->|Hne].
    + by rewrite slots_add_same, Hslots_c.
    + by rewrite slots_add_other, Hslots_c, app_nil_r.
Qed.

Lemma adapters_for_lookup event : ∀ names acts serial i a,
  names !! i = Some event → acts !! i = Some a →
  VFun (adapter (serial + i) (callback a))
  ∈ adapters_for event serial names acts.
Proof.
  induction names as [|name names IH]; intros acts serial i a Hn Ha;
    [done|].
  destruct acts as [|a0 acts]; [done|]. simpl.
  destruct i as [|i]; simpl in Hn, Ha.
  - injection Hn as ->. injection Ha as ->.
    rewrite decide_True by done. rewrite Nat.add_0_r.
    apply elem_of_app. left. by apply list_elem_of_singleton.
  - apply elem_of_app. right.
    replace (serial + S i) with (S serial + i) by lia. by apply IH.
Qed.

(** C2. When the host answers with as many names, all ordinary, as
    actions were submitted, the reply handler first appends, to the slots
    of each returned name, the adapters of the actions answered with that
    name, in the order submitted, so that the adapter of the [i]-th
    action's callback is registered under the [i]-th name.  The adapter of
    a function [f], called with a payload, calls [f] with the payload's
    [id] field as its only argument, which for a caller-supplied function
    means running its body on that one argument.  After the registration
    the handler calls the completion callback once, with the full list of
    returned names; its outcome is the outcome of that call (a
    [TypeError] when the completion callback is not a function). *)
Theorem registerMenuActionGroup_registers g completion typeNames st :
  wf st →
  Forall (ordinary E) typeNames →
  length typeNames = length (actions g) →
  ∃ st1,
    register_from (actions g) 0 typeNames st = Ok st1 ∧
    (∀ event, slots st1 event =
              slots st event
              ++ adapters_for event (closures st) typeNames (actions g)) ∧
    (∀ i name a,
       typeNames !! i = Some name → actions g !! i = Some a →
       VFun (adapter (closures st + i) (callback a)) ∈ slots st1 name) ∧
    (∀ serial f payload s,
       payload ≠ VUndefined → payload ≠ VNull →
       call E (adapter serial (VFun f)) [payload] s =
       '(_, s1) ← call E f [get_field payload "id"] s;
       Ok (VUndefined, s1)) ∧
    (∀ serial id payload s,
       payload ≠ VUndefined → payload ≠ VNull →
       call E (adapter serial (VFun (Native id))) [payload] s =
       match run E (fn_body E id [get_field payload "id"]) s with
       | Ok (_, s1) => Ok (VUndefined, s1)
       | Throw err s1 => Throw err s1
       end) ∧
    request_callback (registerMenuActionGroup g completion) E typeNames st =
    match completion with
    | VFun c =>
        match call E c [VArr (VStr <$> typeNames)] st1 with
        | Ok (_, st2) => Ok ([(c, [VArr (VStr <$> typeNames)])], st2)
        | Throw err st2 =>
            Throw err ([(c, [VArr (VStr <$> typeNames)])], st2)
        end
    | _ => Throw TypeError ([], st1)
    end.
Proof.
  intros Hwf _ Hlen.
  destruct (register_from_slots (actions g) typeNames 0 st Hwf)
    as (st1 & Hloop & _ & Hslots); [lia|].
  rewrite drop_0 in Hslots.
  exists st1. split; [done|]. split; [done|].
  split.
  { intros i name a Hn Ha. rewrite Hslots. apply elem_of_app. right.
    by apply adapters_for_lookup. }
  split.
  { intros serial f payload s Hu Hn. simpl.
    by destruct payload. }
  split.
  { intros serial id payload s Hu Hn. simpl.
    destruct payload; try done;
      by destruct (run E _ s) as [[w s1]|err s1]. }
  simpl. unfold reply. rewrite Hlen, Nat.eqb_refl. simpl.
  by rewrite Hloop.
Qed.

End menu_action_group.

(** ** The properties at concrete inputs *)

Lemma reentrant_engine_returns id :
  returns reentrant_engine VNull (Native id).
Proof.
  intros st. unfold invoke. simpl.
  destruct id as [|[|[|id]]]; simpl; try by eexists.
  destruct (add "x" (VFun (Native 1)) st). by eexists.
Qed.

(** The scenario of the design document: [add("x", f)] returns 0,
    [add("x", g)] returns 1, and after [remove("x", 0)] a notification
    calls [g] alone, once, with the payload. *)
Example notify_after_remove_calls_survivor :
  let st1 := add "x" (VFun (Native 0)) Listeners in
  let st2 := add "x" (VFun (Native 1)) st1.2 in
  let st3 := remove "x" 0 st2.2 in
  st1.1 = 0 ∧ st2.1 = 1 ∧
  notify (constant_engine VUndefined) "x" (VStr "payload") st3
  = Ok (true,
        [{| inv_slot := 1; inv_fn := Native 1;
            inv_args := [VStr "payload"]; inv_result := VUndefined |}],
        st3).
Proof. repeat split. Qed.

(** A veto stands although a later callback returns [true], and the later
    callback is still called; the callback that the first one registers
    during the pass is not called, but is registered afterwards. *)
Example notify_veto_first :
  ∃ st',
    notify reentrant_engine "x" VNull veto_first
    = Ok (false,
          [{| inv_slot := 0; inv_fn := Native 0;
              inv_args := [VNull]; inv_result := VBool false |};
           {| inv_slot := 1; inv_fn := Native 3;
              inv_args := [VNull]; inv_result := VBool true |}],
          st') ∧
    slots st' "x" = [VFun (Native 0); VFun (Native 3); VFun (Native 1)].
Proof. eexists. split; reflexivity. Qed.

(** A callback that tombstones a later slot keeps that slot from being
    called in the same pass. *)
Example notify_busy_registry :
  ∃ st',
    notify reentrant_engine "x" VNull busy_registry
    = Ok (false,
          [{| inv_slot := 0; inv_fn := Native 2;
              inv_args := [VNull]; inv_result := VUndefined |};
           {| inv_slot := 2; inv_fn := Native 0;
              inv_args := [VNull]; inv_result := VBool false |}],
          st') ∧
    slots st' "x"
    = [VFun (Native 2); VBool false; VFun (Native 0); VFun (Native 1)].
Proof. eexists. split; reflexivity. Qed.

(** A three-action group answered with three names: a notification of the
    second name reaches the second action's callback with the payload's
    [id]. *)
Example menu_action_delivers_id :
  ∃ calls st1 b log st2,
    request_callback (registerMenuActionGroup three_actions (VFun (Native 9)))
      recording_engine ["a"; "b"; "c"] Listeners = Ok (calls, st1) ∧
    calls = [(Native 9, [VArr [VStr "a"; VStr "b"; VStr "c"]])] ∧
    slots st1 "b" = [VFun (MenuAction 1 (Native 2))] ∧
    notify recording_engine "b" (VObj [("id", VStr "el-7")]) st1
    = Ok (b, log, st2) ∧
    slots st2 "seen" = [VArr [VStr "a"; VStr "b"; VStr "c"]; VStr "el-7"].
Proof. do 5 eexists. repeat split; reflexivity. Qed.

Lemma remove_keeps_indices_witness :
  (Z.of_nat 1 ≠ 0%Z ∧
   slots (remove "x" 0 veto_first) "x" !! 1 = slots veto_first "x" !! 1) ∧
  (wf two_events ∧ "y" ≠ "x" ∧
   slots (remove "x" 0 two_events) "y" = slots two_events "y").
Proof.
  assert (wf two_events) as Hwf by (do 2 apply wf_add; apply wf_Listeners).
  split.
  - split; [lia|].
    apply (remove_keeps_indices "x" 0%Z veto_first). lia.
  - split; [exact Hwf|]. split; [discriminate|].
    apply (remove_keeps_indices "x" 0%Z two_events); [exact Hwf|discriminate].
Defined.

Lemma notify_false_iff_veto_witness :
  (∀ f, VFun f ∈ slots veto_first "x" → returns reentrant_engine VNull f) ∧
  notify reentrant_engine "x" VNull veto_first
  = Ok (false, veto_first_calls, veto_first_after) ∧
  (false = false ↔
   ∃ c, c ∈ veto_first_calls ∧ inv_result c = VBool false) ∧
  (∀ c, c ∈ veto_first_calls →
        slots veto_first "x" !! inv_slot c = Some (VFun (inv_fn c))) ∧
  replays reentrant_engine veto_first_calls veto_first veto_first_after ∧
  (∀ j f, still_active veto_first veto_first_after "x" j f →
          ∃ c, c ∈ veto_first_calls ∧ inv_slot c = j ∧ inv_fn c = f).
Proof.
  assert (∀ f, VFun f ∈ slots veto_first "x" →
               returns reentrant_engine VNull f) as Hret.
  { intros f Hf.
    change (slots veto_first "x")
      with [VFun (Native 0); VFun (Native 3)] in Hf.
    apply elem_of_cons in Hf as [[= ->]|Hf];
      [apply reentrant_engine_returns|].
    apply list_elem_of_singleton in Hf as [= ->].
    apply reentrant_engine_returns. }
  assert (notify reentrant_engine "x" VNull veto_first
          = Ok (false, veto_first_calls, veto_first_after)) as Heval
    by reflexivity.
  split; [exact Hret|]. split; [exact Heval|].
  destruct (proj1 (notify_false_iff_veto reentrant_engine "x" VNull
                     veto_first) Hret) as (b & log & st' & Hn & Hrest).
  rewrite Heval in Hn. injection Hn as <- <- <-. exact Hrest.
Defined.

Lemma notify_snapshot_witness :
  (∀ f, VFun f ∈ slots busy_registry "x" →
        returns reentrant_engine VNull f) ∧
  ∃ b log st',
    notify reentrant_engine "x" VNull busy_registry = Ok (b, log, st') ∧
    Forall (λ c, slots busy_registry "x" !! inv_slot c
                 = Some (VFun (inv_fn c))) log ∧
    StronglySorted lt (inv_slot <$> log) ∧
    (∀ c, c ∈ log → inv_slot c < length (slots busy_registry "x")) ∧
    grows busy_registry st'.
Proof.
  assert (∀ f, VFun f ∈ slots busy_registry "x" →
               returns reentrant_engine VNull f) as Hret.
  { intros f Hf.
    change (slots busy_registry "x")
      with [VFun (Native 2); VFun (Native 3); VFun (Native 0)] in Hf.
    repeat (apply elem_of_cons in Hf as [[= ->]|Hf];
            [apply reentrant_engine_returns|]).
    by apply elem_of_nil in Hf. }
  split; [exact Hret|].
  exact (notify_snapshot reentrant_engine "x" VNull busy_registry Hret).
Defined.





Lemma notify_invocation_mode_witness :
  notify recording_engine "x" positional_payload two_events
  = Ok (true, positional_calls, (add "seen" (VNum 1) two_events).2) ∧
  replays recording_engine positional_calls two_events
    (add "seen" (VNum 1) two_events).2 ∧
  (∀ l, get_field positional_payload "data" = VArr l →
        [VNum 1; VStr "two"] = l) ∧
  slots (add "seen" (VNum 1) two_events).2 "seen" = [VNum 1].
Proof.
  assert (notify recording_engine "x" positional_payload two_events
          = Ok (true, positional_calls, (add "seen" (VNum 1) two_events).2))
    as Heval by reflexivity.
  split; [exact Heval|].
  destruct (notify_invocation_mode recording_engine "x" positional_payload
              two_events true positional_calls
              (add "seen" (VNum 1) two_events).2 Heval) as [Hrep Hmode].
  split; [exact Hrep|]. split; [|reflexivity].
  destruct (Hmode _ (list_elem_of_here _ _)) as [Hpos _].
  destruct (Hpos eq_refl) as (_ & Hl & _). exact Hl.
Defined.

(** C6, as documented, fails when the marker comes without an argument
    list: the callback is then called with no argument at all, not with the
    payload. *)
Lemma notify_marker_without_list :
  notify (constant_engine VUndefined) "x" marker_only two_events
  = Ok (true,
        [{| inv_slot := 0; inv_fn := Native 0;
            inv_args := []; inv_result := VUndefined |}],
        two_events) ∧
  ¬ mode_as_documented marker_only
      {| inv_slot := 0; inv_fn := Native 0;
         inv_args := []; inv_result := VUndefined |}.
Proof. split; [reflexivity|]. unfold mode_as_documented. simpl. discriminate. Qed.

Lemma registerMenuActionGroup_mismatch_witness :
  length ["a"; "b"] ≠ length (actions three_actions) ∧
  request_callback (registerMenuActionGroup three_actions (VFun (Native 9)))
    (constant_engine VUndefined) ["a"; "b"] two_events
  = Ok ([], two_events).
Proof.
  split; [simpl; lia|].
  apply registerMenuActionGroup_mismatch. simpl. lia.
Defined.

(** C3, as documented, fails: the payload of a group whose actions have
    callbacks carries those callbacks. *)
Lemma registerMenuActionGroup_payload_has_callbacks :
  carries_callback
    (request_payload (registerMenuActionGroup three_actions (VFun (Native 9))))
  = true.
Proof. reflexivity. Qed.

Lemma registerMenuActionGroup_registers_witness :
  wf Listeners ∧
  Forall (ordinary recording_engine) ["a"; "b"; "c"] ∧
  length ["a"; "b"; "c"] = length (actions three_actions) ∧
  (∃ final,
     request_callback
       (registerMenuActionGroup three_actions (VFun (Native 9)))
       recording_engine ["a"; "b"; "c"] Listeners
     = Ok ([(Native 9, [VArr [VStr "a"; VStr "b"; VStr "c"]])], final) ∧
     slots final "b" = [VFun (MenuAction 1 (Native 2))] ∧
     slots final "seen" = [VArr [VStr "a"; VStr "b"; VStr "c"]]) ∧
  ∃ st1,
    register_from (actions three_actions) 0 ["a"; "b"; "c"] Listeners
    = Ok st1 ∧
    (∀ event, slots st1 event =
              slots Listeners event
              ++ adapters_for event (closures Listeners) ["a"; "b"; "c"]
                   (actions three_actions)) ∧
    (∀ i name a,
       ["a"; "b"; "c"] !! i = Some name →
       actions three_actions !! i = Some a →
       VFun (adapter (closures Listeners + i) (callback a))
       ∈ slots st1 name) ∧
    (∀ serial f payload s,
       payload ≠ VUndefined → payload ≠ VNull →
       call recording_engine (adapter serial (VFun f)) [payload] s =
       '(_, s1) ← call recording_engine f [get_field payload "id"] s;
       Ok (VUndefined, s1)) ∧
    (∀ serial id payload s,
       payload ≠ VUndefined → payload ≠ VNull →
       call recording_engine (adapter serial (VFun (Native id))) [payload] s =
       match run recording_engine
               (fn_body recording_engine id [get_field payload "id"]) s with
       | Ok (_, s1) => Ok (VUndefined, s1)
       | Throw err s1 => Throw err s1
       end) ∧
    request_callback (registerMenuActionGroup three_actions (VFun (Native 9)))
      recording_engine ["a"; "b"; "c"] Listeners =
    match call recording_engine (Native 9)
            [VArr (VStr <$> ["a"; "b"; "c"])] st1 with
    | Ok (_, st2) =>
        Ok ([(Native 9, [VArr (VStr <$> ["a"; "b"; "c"])])], st2)
    | Throw err st2 =>
        Throw err ([(Native 9, [VArr (VStr <$> ["a"; "b"; "c"])])], st2)
    end.
Proof.
  assert (Forall (ordinary recording_engine) ["a"; "b"; "c"]) as Hord
    by (repeat constructor; discriminate).
  split; [apply wf_Listeners|]. split; [exact Hord|].
  split; [reflexivity|].
  split; [eexists; repeat split; reflexivity|].
  exact (registerMenuActionGroup_registers recording_engine three_actions
           (VFun (Native 9)) ["a"; "b"; "c"] Listeners wf_Listeners Hord
           eq_refl).
Defined.

(** ** Further properties of the registry operations *)

Section more_registry.
Context (E : engine).

(** X1. In a well-formed registry [add], for an event type of an ordinary
    name, returns the number of slots the event type had, puts the
    callback in the slot of that index at the end of the sequence, and
    leaves the slots of every other event type as they were. *)
Theorem add_appends event cb st :
  ordinary E event →
  wf st →
  (add event cb st).1 = length (slots st event) ∧
  slots (add event cb st).2 event = slots st event ++ [cb] ∧
  slots (add event cb st).2 event !! (add event cb st).1 = Some cb ∧
  (∀ ev, ev ≠ event → slots (add event cb st).2 ev = slots st ev).
Proof.
  intros _ Hwf. split; [apply add_index|]. split; [by apply slots_add_same|].
  split.
  - rewrite add_index, slots_add_same by done.
    by rewrite lookup_app_r, Nat.sub_diag by lia.
  - intros ev Hne. by apply slots_add_other.
Qed.

Lemma active_from_snoc_other a v : ∀ j,
  is_function v = false → active_from j (a ++ [v]) = active_from j a.
Proof.
  induction a as [|w a IH]; intros j Hv; simpl.
  - by destruct v.
  - rewrite IH by done. by destruct w.
Qed.

(** X2. For an event type of an ordinary name, removing a listener by the
    index [add] returned for it leaves the tombstone in its slot: the
    active callbacks are those from before the [add], while the next [add]
    gets the index after, not the same one. *)
Theorem add_then_remove event cb st :
  ordinary E event → wf st → cb ≠ VUndefined →
  slots (remove event (Z.of_nat (add event cb st).1) (add event cb st).2) event
  = slots st event ++ [VBool false] ∧
  active (remove event (Z.of_nat (add event cb st).1) (add event cb st).2)
    event
  = active st event ∧
  (∀ cb', (add event cb'
             (remove event (Z.of_nat (add event cb st).1)
                (add event cb st).2)).1
          = S (add event cb st).1).
Proof.
  intros _ Hwf Hcb.
  assert (slots (remove event (Z.of_nat (add event cb st).1)
                   (add event cb st).2) event
          = slots st event ++ [VBool false]) as Hslots.
  { rewrite slots_remove, add_index, slots_add_same by done.
    rewrite element_nat, Nat2Z.id.
    rewrite lookup_app_r, Nat.sub_diag by lia. simpl.
    assert (is_undefined cb = false) as -> by (by destruct cb).
    rewrite insert_app_r_alt, Nat.sub_diag by lia. done. }
  split; [done|]. split.
  - unfold active. rewrite Hslots. by apply active_from_snoc_other.
  - intros cb'. rewrite (add_index event cb'), Hslots, length_app, add_index.
    simpl. lia.
Qed.

(** X3. Removing the same slot twice is the same as removing it once. *)
Theorem remove_idempotent event index st :
  remove event index (remove event index st) = remove event index st.
Proof.
  unfold remove at 2. destruct (listeners st !! event) as [r|] eqn:Hr.
  2: { unfold remove. by rewrite Hr. }
  destruct (is_undefined (element (array_at st r) index)) eqn:Hu.
  { unfold remove. by rewrite Hr, Hu. }
  unfold remove. simpl. rewrite Hr.
  unfold element in Hu. destruct (index <? 0)%Z eqn:Hneg; [done|].
  destruct (array_at st r !! Z.to_nat index) as [v|] eqn:Hv; [|done].
  assert (r < length (arrays st)) as Hlt.
  { unfold array_at in Hv.
    destruct (arrays st !! r) as [a|] eqn:Ha; [by eapply lookup_lt_Some|done]. }
  rewrite array_at_set_array_eq by done.
  unfold element. rewrite Hneg.
  rewrite list_lookup_insert_eq by (by eapply lookup_lt_Some).
  rewrite Hv. simpl in *. rewrite Hu.
  unfold set_array. simpl. f_equal.
  by rewrite !list_insert_insert_eq.
Qed.

(** X4. [remove] with an index that is negative or not below the number of
    slots of the event type, and so also [remove] for an event type that
    was never registered, changes nothing. *)
Theorem remove_out_of_range event index st :
  (index < 0)%Z ∨ (Z.of_nat (length (slots st event)) ≤ index)%Z →
  remove event index st = st.
Proof.
  intros Hrange. unfold remove, slots in *.
  destruct (listeners st !! event) as [r|]; [|done].
  assert (element (array_at st r) index = VUndefined) as ->; [|done].
  unfold element. destruct (index <? 0)%Z eqn:Hneg; [done|].
  apply Z.ltb_ge in Hneg. rewrite lookup_ge_None_2; [done|]. lia.
Qed.

(** X5. A notification that follows [remove(event, index)] makes no call
    to the slot [index], whatever the callbacks do during the pass. *)
Theorem notify_skips_removed event index data st b log st' :
  notify E event data (remove event index st) = Ok (b, log, st') →
  ∀ c, c ∈ log → Z.of_nat (inv_slot c) ≠ index.
Proof.
  intros (_ & Hall & _ & _)%notify_safe c Hc Heq.
  rewrite Forall_forall in Hall. destruct (Hall c Hc) as [Hslot _].
  rewrite slots_remove in Hslot. subst index.
  rewrite element_nat, Nat2Z.id in Hslot.
  destruct (slots st event !! inv_slot c) as [v|] eqn:Hv; simpl in Hslot.
  - destruct (is_undefined v) eqn:Hu.
    + rewrite Hv in Hslot. injection Hslot as ->. done.
    + rewrite list_lookup_insert_eq in Hslot by (by eapply lookup_lt_Some).
      done.
  - by rewrite Hv in Hslot.
Qed.

(** X6. [removeAll] with a truthy event type whose key is an ordinary name
    leaves that event type with no slot, so that the next [add] for it
    returns index 0 again and a notification of it calls nothing and
    returns [true]; the slots of the other event types stay. *)
Theorem removeAll_named_restarts (event : value) st :
  truthy event = true →
  ordinary E (to_key E event) →
  slots (removeAll E event st) (to_key E event) = [] ∧
  (∀ cb, (add (to_key E event) cb (removeAll E event st)).1 = 0) ∧
  (∀ ev, ev ≠ to_key E event →
     slots (removeAll E event st) ev = slots st ev) ∧
  (∀ data, notify E (to_key E event) data (removeAll E event st)
           = Ok (true, [], removeAll E event st)).
Proof.
  intros Ht _.
  assert (listeners (removeAll E event st) !! to_key E event
          = Some (bind_fresh (to_key E event) st).1 ∧
          array_at (removeAll E event st) (bind_fresh (to_key E event) st).1
          = [])
    as [Hl Ha].
  { unfold removeAll. rewrite Ht. simpl. rewrite lookup_insert_eq.
    split; [done|]. apply (array_at_bind_fresh_new (to_key E event) st). }
  assert (slots (removeAll E event st) (to_key E event) = []) as Hslots
    by (unfold slots; by rewrite Hl).
  split; [done|]. split; [intros cb; by rewrite add_index, Hslots|].
  split; [intros ev Hne; by apply removeAll_named_keeps_others|].
  intros data. unfold notify, each. by rewrite Hl, Ha.
Qed.

Lemma addAll_spec : ∀ events out st,
  wf st → NoDup events.*1 →
  wf (addAll events out st).2 ∧
  (∀ ev cb, (ev, cb) ∈ events →
     (addAll events out st).1 !! ev = Some (length (slots st ev)) ∧
     slots (addAll events out st).2 ev = slots st ev ++ [cb]) ∧
  (∀ ev, ev ∉ events.*1 →
     (addAll events out st).1 !! ev = out !! ev ∧
     slots (addAll events out st).2 ev = slots st ev).
Proof.
  induction events as [|[event cb] events IH]; intros out st Hwf Hnd.
  - simpl. split; [done|]. split; [by intros ev cb ?%elem_of_nil|done].
  - simpl in Hnd. apply NoDup_cons in Hnd as [Hnotin Hnd]. simpl.
    destruct (add event cb st) as [index st1] eqn:Hadd.
    assert (index = (add event cb st).1) as Hindex by (by rewrite Hadd).
    assert (st1 = (add event cb st).2) as Hst1 by (by rewrite Hadd).
    rewrite add_index in Hindex.
    assert (wf st1) as Hwf1 by (subst st1; by apply wf_add).
    destruct (IH (<[event := index]> out) st1 Hwf1 Hnd)
      as (Hwf' & Hin & Hout).
    split; [done|]. split.
    + intros ev cb' [[= -> ->]|Hev]%elem_of_cons.
      * destruct (Hout event Hnotin) as [-> ->].
        rewrite lookup_insert_eq, Hst1, slots_add_same by done.
        by rewrite Hindex.
      * destruct (Hin ev cb' Hev) as [-> ->].
        assert (event ≠ ev) as Hne.
        { intros ->. apply Hnotin. apply list_elem_of_fmap.
          by exists (ev, cb'). }
        by rewrite Hst1, slots_add_other.
    + intros ev Hev. apply not_elem_of_cons in Hev as [Hne Hev].
      destruct (Hout ev Hev) as [-> ->].
      rewrite lookup_insert_ne by done. split; [done|].
      by rewrite Hst1, slots_add_other.
Qed.

(** X7. [addAll] over an object with distinct, ordinary event names, in a
    well-formed registry: the dictionary it returns gives each name the
    number of slots that event type had, each name's callback is appended
    to its slots, and the event types not named are not touched and not in
    the dictionary. *)
Theorem addAll_distinct events st :
  Forall (ordinary E) events.*1 →
  wf st → NoDup events.*1 →
  (∀ ev cb, (ev, cb) ∈ events →
     (addAll events ∅ st).1 !! ev = Some (length (slots st ev)) ∧
     slots (addAll events ∅ st).2 ev = slots st ev ++ [cb]) ∧
  (∀ ev, ev ∉ events.*1 →
     (addAll events ∅ st).1 !! ev = None ∧
     slots (addAll events ∅ st).2 ev = slots st ev).
Proof.
  intros _ Hwf Hnd.
  destruct (addAll_spec events ∅ st Hwf Hnd) as (_ & Hin & Hout).
  split; [done|]. intros ev Hev. destruct (Hout ev Hev) as [-> ->].
  by rewrite lookup_empty.
Qed.

End more_registry.

(** ** Further properties of [notify] *)

Section more_notify.
Context (E : engine).

Lemma split_first_function (l : list value) :
  (∃ f, VFun f ∈ l) →
  ∃ pre f post,
    l = pre ++ VFun f :: post ∧ Forall (λ v, is_function v = false) pre.
Proof.
  induction l as [|v l IH]; intros [f Hf]; [by apply elem_of_nil in Hf|].
  destruct (is_function v) eqn:Hv.
  - destruct v as [| | | | |g| |]; try discriminate.
    by exists [], g, l.
  - apply elem_of_cons in Hf as [<-|Hf]; [done|].
    destruct IH as (pre & g & post & -> & Hpre); [by exists f|].
    exists (v :: pre), g, post. split; [done|]. by constructor.
Qed.

Lemma each_from_S {A : Type} r
  (cb : nat → value → A → state → result (A * state) (value * A * state))
  i count acc st :
  each_from r cb i (S count) acc st =
  '(v, acc1, st1) ← cb i (element (array_at st r) (Z.of_nat i)) acc st;
  if is_false v then Ok (acc1, st1)
  else each_from r cb (S i) count acc1 st1.
Proof. done. Qed.

(** The loop fails with what the first function it reaches throws, in the
    state that function left, and with no call added to the record. *)
Lemma each_from_notify_throws r data f e s post : ∀ pre i acc st,
  drop i (array_at st r) = pre ++ VFun f :: post →
  Forall (λ v, is_function v = false) pre →
  invoke E data f st = Throw e s →
  each_from r (notify_each E data) i (length (pre ++ VFun f :: post)) acc st
  = Throw e (acc, s).
Proof.
  induction pre as [|v pre IH]; intros i acc st Hdrop Hpre Hinv.
  - assert (array_at st r !! i = Some (VFun f)) as He.
    { rewrite <- (Nat.add_0_r i), <- lookup_drop, Hdrop. done. }
    change (length ([] ++ VFun f :: post)) with (S (length post)).
    rewrite each_from_S, element_nat, He.
    change (default VUndefined (Some (VFun f))) with (VFun f).
    assert (notify_each E data i (VFun f) acc st = Throw e (acc, s)) as ->
      by (unfold notify_each; by rewrite Hinv).
    done.
  - apply Forall_cons in Hpre as [Hv Hpre].
    assert (array_at st r !! i = Some v) as He.
    { rewrite <- (Nat.add_0_r i), <- lookup_drop, Hdrop. done. }
    assert (drop (S i) (array_at st r) = pre ++ VFun f :: post) as Hdrop'.
    { replace (S i) with (i + 1) by lia. by rewrite <- drop_drop, Hdrop. }
    change (length ((v :: pre) ++ VFun f :: post))
      with (S (length (pre ++ VFun f :: post))).
    rewrite each_from_S, element_nat, He.
    change (default VUndefined (Some v)) with v.
    assert (notify_each E data i v acc st = Ok (VUndefined, acc, st)) as ->
      by (by destruct v).
    by apply IH.
Qed.

Lemma notify_throws event data st pre f post e s :
  slots st event = pre ++ VFun f :: post →
  Forall (λ v, is_function v = false) pre →
  invoke E data f st = Throw e s →
  notify E event data st = Throw e ([], s).
Proof.
  intros Hslots Hpre Hinv. unfold notify, slots, each in *.
  destruct (listeners st !! event) as [r|]; [|by destruct pre].
  rewrite Hslots.
  rewrite (each_from_notify_throws r data f e s post pre 0 (true, []) st);
    [done|by rewrite drop_0|done|done].
Qed.

(** When the loop fails, it fails with what one callback threw, after the
    calls on record and nothing more. *)
Lemma each_from_notify_Throw r data : ∀ count i acc st e acc' s,
  each_from r (notify_each E data) i count acc st = Throw e (acc', s) →
  ∃ new s0 f,
    acc'.2 = acc.2 ++ new ∧
    replays E new st s0 ∧
    invoke E data f s0 = Throw e s.
Proof.
  induction count as [|count IH]; intros i acc st e acc' s Hloop;
    simpl in Hloop; [done|].
  destruct (notify_each E data i _ acc st) as [[[v acc1] st1]|err [acc1 st1]]
    eqn:Hstep; simpl in Hloop.
  - apply notify_each_Ok in Hstep as [-> Hstep]. simpl in Hloop.
    destruct Hstep as [(f & args & res & _ & Hinv & ->)|(_ & -> & ->)].
    + destruct (IH _ _ _ _ _ _ Hloop) as (new & s0 & g & Hlog & Hrep & Hthrow).
      simpl in Hlog.
      exists ({| inv_slot := i; inv_fn := f; inv_args := args;
                 inv_result := res |} :: new), s0, g.
      split; [by rewrite Hlog, <- app_assoc|]. split; [|done].
      simpl. exists st1. split; [|done].
      by apply invoke_Ok in Hinv as [Hcall _].
    + by apply (IH _ _ _ _ _ _ Hloop).
  - injection Hloop as <- <- <-.
    unfold notify_each in Hstep.
    destruct (element (array_at st r) (Z.of_nat i)) as [| | | | |f| |];
      try discriminate.
    destruct (invoke E data f st) as [[[args res] st2]|err2 st2] eqn:Hinv;
      [discriminate|].
    injection Hstep as <- <- <-.
    exists [], st, f. by rewrite app_nil_r.
Qed.

(** X8. With the positional marker set and a [data.data] that is a
    boolean, a number or a string, a notification of an event type that
    has a callback throws a [TypeError], before any callback is called
    and with the registry as it was. *)
Theorem notify_primitive_argument_list event data st :
  get_field data "params" = VBool true →
  argument_list_is_primitive data = true →
  (∃ f, VFun f ∈ slots st event) →
  notify E event data st = Throw TypeError ([], st).
Proof.
  intros Hp%positional_spec Hprim Hf.
  destruct (split_first_function _ Hf) as (pre & f & post & Hslots & Hpre).
  apply (notify_throws event data st pre f post); [done|done|].
  unfold invoke. rewrite Hp. unfold argument_list_is_primitive in Hprim.
  by destruct (get_field data "data").
Qed.

(** X9. [notify] does not catch what a callback throws.  When the first
    callback of the event type throws, the notification throws the same,
    with no call on record and the registry as that callback left it.
    Whenever a notification throws, what it throws is what one callback
    threw, called after the calls on record had been made one after the
    other, and the registry is as that callback left it: nothing is
    called after a callback has thrown. *)
Theorem notify_propagates_exception event data st :
  (∀ pre f post e s,
     slots st event = pre ++ VFun f :: post →
     Forall (λ v, is_function v = false) pre →
     invoke E data f st = Throw e s →
     notify E event data st = Throw e ([], s)) ∧
  (∀ e log s,
     notify E event data st = Throw e (log, s) →
     ∃ s0 f, replays E log st s0 ∧ invoke E data f s0 = Throw e s).
Proof.
  split.
  - intros pre f post e s. apply notify_throws.
  - intros e log s. unfold notify, each.
    destruct (listeners st !! event) as [r|]; [|done].
    destruct (each_from r _ 0 _ (true, []) st) as [[acc st1]|err [acc1 st2]]
      eqn:Hloop; simpl; [done|].
    intros [= <- <- <-].
    apply each_from_notify_Throw in Hloop
      as (new & s0 & f & Hlog & Hrep & Hthrow).
    simpl in Hlog. rewrite Hlog. by exists s0, f.
Qed.

(** What the loop records as a call is a call that returned. *)
Lemma each_from_notify_results r data : ∀ count i acc st acc' st',
  each_from r (notify_each E data) i count acc st = Ok (acc', st') →
  ∃ new,
    acc'.2 = acc.2 ++ new ∧
    Forall (λ c, ∃ s s', call E (inv_fn c) (inv_args c) s
                         = Ok (inv_result c, s')) new.
Proof.
  induction count as [|count IH]; intros i acc st acc' st' Hloop;
    simpl in Hloop.
  - injection Hloop as <- <-. exists []. by rewrite app_nil_r.
  - destruct (notify_each E data i _ acc st) as [[[v acc1] st1]|err]
      eqn:Hstep; simpl in Hloop; [|done].
    apply notify_each_Ok in Hstep as [-> Hstep]. simpl in Hloop.
    destruct Hstep as [(f & args & res & _ & Hinv & ->)|(_ & -> & ->)].
    + destruct (IH _ _ _ _ _ Hloop) as (new & Hlog & Hall).
      simpl in Hlog.
      exists ({| inv_slot := i; inv_fn := f; inv_args := args;
                 inv_result := res |} :: new).
      split; [by rewrite Hlog, <- app_assoc|].
      constructor; [|done]. simpl.
      apply invoke_Ok in Hinv as [Hcall _]. by exists st, st1.
    + by apply (IH _ _ _ _ _ Hloop).
Qed.

Lemma notify_results event data st b log st' :
  notify E event data st = Ok (b, log, st') →
  Forall (λ c, ∃ s s', call E (inv_fn c) (inv_args c) s
                       = Ok (inv_result c, s')) log.
Proof.
  unfold notify, each. destruct (listeners st !! event) as [r|];
    [|by intros [= _ <- _]].
  destruct (each_from r _ 0 _ (true, []) st) as [[acc st1]|err [acc1 st2]] eqn:Hloop;
    simpl; [|done].
  intros [= _ <- _].
  by apply each_from_notify_results in Hloop as (new & -> & Hall).
Qed.

Lemma menu_closure_result f args s v s' :
  is_menu_closure f = true → call E f args s = Ok (v, s') → v = VUndefined.
Proof.
  destruct f as [id|serial g|serial]; [done| |]; intros _ Hcall.
  - rewrite call_menu_action in Hcall.
    destruct (nth 0 args VUndefined); try discriminate;
      (destruct (call E g _ s) as [[w s1]|e]; simpl in Hcall;
       [by injection Hcall as <- _|discriminate]).
  - by injection Hcall as <- _.
Qed.

(** X10. A menu action cannot veto: when the callbacks of an event type
    are all closures built by [createMenuAction], a notification that
    returns returns [true], and every call it made returned [undefined],
    whatever the wrapped callbacks return. *)
Theorem notify_menu_actions_never_veto event data st b log st' :
  (∀ f, VFun f ∈ slots st event → is_menu_closure f = true) →
  notify E event data st = Ok (b, log, st') →
  b = true ∧ ∀ c, c ∈ log → inv_result c = VUndefined.
Proof.
  intros Hmenu Hn.
  pose proof (notify_results _ _ _ _ _ _ Hn) as Hres.
  apply notify_safe in Hn as (-> & Hall & _ & _).
  rewrite Forall_forall in Hall, Hres.
  assert (∀ c, c ∈ log → inv_result c = VUndefined) as Hundef.
  { intros c Hc. destruct (Hall c Hc) as [Hslot _].
    destruct (Hres c Hc) as (s & s' & Hcall).
    eapply menu_closure_result; [|exact Hcall].
    apply Hmenu. apply list_elem_of_lookup. by eexists. }
  split; [|done].
  apply forallb_forall. intros c Hc%list_elem_of_In.
  unfold allows. by rewrite (Hundef c Hc).
Qed.

(** X11. A notification of an event type whose only slot is the adapter
    of [f], with a payload that is an object without the positional
    marker, is one call of [f] with the payload's [id]; it returns [true]
    and records the one call of the adapter, or throws what [f] throws,
    with no call on record. *)
Theorem notify_menu_action_delivers_id event serial f payload st :
  slots st event = [VFun (MenuAction serial f)] →
  positional payload = false →
  payload ≠ VUndefined → payload ≠ VNull →
  notify E event payload st =
  match call E f [get_field payload "id"] st with
  | Ok (_, st1) =>
      Ok (true,
          [{| inv_slot := 0; inv_fn := MenuAction serial f;
              inv_args := [payload]; inv_result := VUndefined |}],
          st1)
  | Throw err st1 => Throw err ([], st1)
  end.
Proof.
  intros Hslots Hpos Hu Hn. unfold notify, slots in *.
  destruct (listeners st !! event) as [r|]; [|done].
  unfold each. rewrite Hslots.
  change (length [VFun (MenuAction serial f)]) with 1.
  rewrite each_from_S, element_nat, Hslots.
  change (default VUndefined ([VFun (MenuAction serial f)] !! 0))
    with (VFun (MenuAction serial f)).
  assert (invoke E payload (MenuAction serial f) st =
          '(_, st1) ← call E f [get_field payload "id"] st;
          Ok ([payload], VUndefined, st1)) as Hinv.
  { unfold invoke. rewrite Hpos, call_menu_action.
    change (nth 0 [payload] VUndefined) with payload.
    destruct payload; try done;
      by destruct (call E f _ st) as [[w s1]|e s1]. }
  unfold notify_each. rewrite Hinv.
  by destruct (call E f _ st) as [[w s1]|e s1].
Qed.

End more_notify.

(** ** Further properties of [removeByCallback] and the registrar *)

Section more_registrar.
Context (E : engine).

Lemma existsb_same_function callback (l : list value) :
  existsb (λ e, same_function e callback) l = true ↔ VFun callback ∈ l.
Proof.
  rewrite existsb_exists. split.
  - intros (v & Hin%list_elem_of_In & Hsame).
    destruct v as [| | | | |g| |]; try discriminate.
    simpl in Hsame. by apply bool_decide_eq_true in Hsame as ->.
  - intros Hin. exists (VFun callback). split; [by apply list_elem_of_In|].
    simpl. by apply bool_decide_eq_true.
Qed.

(** X12. For an event type that has been registered, [removeByCallback]
    returns [false] with the registry as it was when no slot holds the
    given function; when a slot holds it and the function has no [remove]
    member that is a function, it throws a [TypeError], again with the
    registry as it was. *)
Theorem removeByCallback_known_event event callback st :
  is_Some (listeners st !! event) →
  (VFun callback ∈ slots st event →
   is_function (member_remove E callback) = false →
   removeByCallback E event callback st = Throw TypeError st) ∧
  (VFun callback ∉ slots st event →
   removeByCallback E event callback st = Ok (false, st)).
Proof.
  intros _.
  pose proof (existsb_same_function callback (slots st event)) as Hex.
  split.
  - intros Hin Hm. rewrite removeByCallback_outcome by done.
    apply Hex in Hin. by rewrite Hin.
  - intros Hin. unfold removeByCallback, slots, each in *.
    destruct (listeners st !! event) as [r|]; [|done].
    rewrite each_from_removeByCallback_none; [done|].
    rewrite drop_0, firstn_all.
    destruct (existsb _ (array_at st r)); [|done].
    exfalso. apply Hin. by apply Hex.
Qed.

(** X13. When the host answers with as many names, all ordinary, as
    actions were submitted and the completion callback is not a function,
    the reply handler throws a [TypeError] after its registration loop:
    when the exception is thrown no completion call has been made and the
    adapters of all the actions are in the registry. *)
Theorem reply_without_completion g completion typeNames st :
  wf st →
  Forall (ordinary E) typeNames →
  length typeNames = length (actions g) →
  is_function completion = false →
  ∃ st1,
    request_callback (registerMenuActionGroup g completion) E typeNames st
    = Throw TypeError ([], st1) ∧
    ∀ event, slots st1 event =
             slots st event
             ++ adapters_for event (closures st) typeNames (actions g).
Proof.
  intros Hwf _ Hlen Hfun.
  destruct (register_from_slots (actions g) typeNames 0 st Hwf)
    as (st1 & Hloop & _ & Hslots); [lia|].
  rewrite drop_0 in Hslots.
  exists st1. split; [|done].
  simpl. unfold reply. rewrite Hlen, Nat.eqb_refl. simpl.
  rewrite Hloop. by destruct completion.
Qed.

Lemma wf_register_from acts : ∀ names i st st1,
  wf st → register_from acts i names st = Ok st1 → wf st1.
Proof.
  induction names as [|name names IH]; intros i st st1 Hwf Hloop;
    simpl in Hloop.
  - by injection Hloop as <-.
  - destruct (acts !! i) as [a|]; [|done].
    pose proof (wf_createMenuAction (callback a) st Hwf) as Hwf_c.
    destruct (createMenuAction (callback a) st) as [m st_c].
    simpl in Hwf_c.
    pose proof (wf_add name (VFun m) st_c Hwf_c) as Hwf2.
    destruct (add name (VFun m) st_c) as [index st2]. simpl in Hwf2.
    by eapply IH.
Qed.

(** X14. Every entry of the dictionary points at an array object of its
    own.  A new registry is so, and [add], [remove], [removeAll], a
    notification and the reply handler of a menu action group keep it
    so. *)
Theorem registry_stays_well_formed :
  wf Listeners ∧
  ∀ st, wf st →
    (∀ event cb, wf (add event cb st).2) ∧
    (∀ event index, wf (remove event index st)) ∧
    (∀ event, wf (removeAll E event st)) ∧
    (∀ event data b log st',
       notify E event data st = Ok (b, log, st') → wf st') ∧
    (∀ g completion typeNames calls st',
       request_callback (registerMenuActionGroup g completion) E typeNames st
       = Ok (calls, st') → wf st').
Proof.
  split; [apply wf_Listeners|]. intros st Hwf.
  split; [intros; by apply wf_add|].
  split; [intros; by apply wf_remove|].
  split; [intros; by apply wf_removeAll|].
  split; [intros *; by apply wf_notify|].
  intros g completion typeNames calls st'. simpl. unfold reply.
  destruct (negb _); [by intros [= _ <-]|].
  destruct (register_from (actions g) 0 typeNames st) as [st1|e st1]
    eqn:Hloop; [|done].
  apply wf_register_from in Hloop; [|done].
  destruct completion as [| | | | |c| |]; try done.
  destruct (call E c _ st1) as [[v st2]|e st2] eqn:Hcall; [|done].
  intros [= _ <-]. by eapply wf_call.
Qed.

End more_registrar.

(** ** The further properties at concrete inputs *)

Lemma wf_two_events : wf two_events.
Proof. do 2 apply wf_add. apply wf_Listeners. Qed.

Lemma ordinary_x : ordinary (constant_engine VUndefined) "x".
Proof. split; [discriminate|reflexivity]. Qed.

Lemma add_appends_witness :
  ordinary (constant_engine VUndefined) "x" ∧
  wf two_events ∧
  (add "x" (VFun (Native 7)) two_events).1 = 1 ∧
  slots (add "x" (VFun (Native 7)) two_events).2 "x"
  = [VFun (Native 0); VFun (Native 7)].
Proof.
  split; [apply ordinary_x|]. split; [apply wf_two_events|].
  destruct (add_appends (constant_engine VUndefined) "x" (VFun (Native 7))
              two_events ordinary_x wf_two_events)
    as (Hindex & Hslots & _).
  split; [exact Hindex|exact Hslots].
Defined.

Lemma add_then_remove_witness :
  ordinary (constant_engine VUndefined) "x" ∧
  wf two_events ∧ VFun (Native 7) ≠ VUndefined ∧
  active (remove "x" (Z.of_nat (add "x" (VFun (Native 7)) two_events).1)
            (add "x" (VFun (Native 7)) two_events).2) "x"
  = active two_events "x".
Proof.
  split; [apply ordinary_x|].
  split; [apply wf_two_events|]. split; [discriminate|].
  apply (add_then_remove (constant_engine VUndefined) "x" (VFun (Native 7))
           two_events);
    [apply ordinary_x|apply wf_two_events|discriminate].
Defined.

Lemma remove_out_of_range_witness :
  ((-1 < 0)%Z ∨ (Z.of_nat (length (slots two_events "x")) ≤ -1)%Z) ∧
  remove "x" (-1) two_events = two_events ∧
  remove "never" 0 two_events = two_events.
Proof.
  split; [left; lia|]. split.
  - apply remove_out_of_range. left. lia.
  - apply remove_out_of_range. right.
    change (slots two_events "never") with (@nil value). simpl. lia.
Defined.

Lemma notify_skips_removed_witness :
  notify reentrant_engine "x" VNull (remove "x" 0 veto_first)
  = Ok (true,
        [{| inv_slot := 1; inv_fn := Native 3;
            inv_args := [VNull]; inv_result := VBool true |}],
        remove "x" 0 veto_first) ∧
  Z.of_nat 1 ≠ 0%Z.
Proof.
  split; [reflexivity|].
  apply (notify_skips_removed reentrant_engine "x" 0%Z VNull veto_first
           true _ (remove "x" 0 veto_first) eq_refl
           {| inv_slot := 1; inv_fn := Native 3;
              inv_args := [VNull]; inv_result := VBool true |}).
  apply list_elem_of_here.
Defined.

Lemma removeAll_named_restarts_witness :
  truthy (VStr "x") = true ∧
  ordinary (constant_engine VUndefined)
    (to_key (constant_engine VUndefined) (VStr "x")) ∧
  slots (removeAll (constant_engine VUndefined) (VStr "x") two_events) "x" = [] ∧
  slots (removeAll (constant_engine VUndefined) (VStr "x") two_events) "y"
  = [VFun (Native 1)].
Proof.
  assert (ordinary (constant_engine VUndefined)
            (to_key (constant_engine VUndefined) (VStr "x"))) as Hkey
    by apply ordinary_x.
  split; [reflexivity|]. split; [exact Hkey|].
  destruct (removeAll_named_restarts (constant_engine VUndefined) (VStr "x")
              two_events eq_refl Hkey) as (Hx & _ & Hy & _).
  split; [exact Hx|]. by rewrite (Hy "y").
Defined.

Lemma addAll_distinct_witness :
  Forall (ordinary (constant_engine VUndefined))
    [("x", VFun (Native 5)); ("z", VFun (Native 6))].*1 ∧
  wf two_events ∧
  NoDup [("x", VFun (Native 5)); ("z", VFun (Native 6))].*1 ∧
  (addAll [("x", VFun (Native 5)); ("z", VFun (Native 6))] ∅ two_events).1
    !! "x" = Some 1 ∧
  (addAll [("x", VFun (Native 5)); ("z", VFun (Native 6))] ∅ two_events).1
    !! "z" = Some 0.
Proof.
  assert (Forall (ordinary (constant_engine VUndefined))
            [("x", VFun (Native 5)); ("z", VFun (Native 6))].*1) as Hord
    by (repeat constructor; discriminate).
  assert (NoDup [("x", VFun (Native 5)); ("z", VFun (Native 6))].*1) as Hnd.
  { apply NoDup_cons. split; [|apply NoDup_singleton].
    intros Hin%list_elem_of_singleton. discriminate. }
  split; [exact Hord|]. split; [apply wf_two_events|]. split; [exact Hnd|].
  destruct (addAll_distinct (constant_engine VUndefined)
              [("x", VFun (Native 5)); ("z", VFun (Native 6))]
              two_events Hord wf_two_events Hnd) as [Hin _].
  split.
  - apply (Hin "x" (VFun (Native 5))). by left.
  - apply (Hin "z" (VFun (Native 6))). right. by left.
Defined.

Lemma notify_primitive_argument_list_witness :
  get_field primitive_list_payload "params" = VBool true ∧
  argument_list_is_primitive primitive_list_payload = true ∧
  (∃ f, VFun f ∈ slots two_events "x") ∧
  notify (constant_engine VUndefined) "x" primitive_list_payload two_events
  = Throw TypeError ([], two_events).
Proof.
  assert (∃ f, VFun f ∈ slots two_events "x") as Hf
    by (exists (Native 0); apply list_elem_of_here).
  split; [reflexivity|]. split; [reflexivity|]. split; [exact Hf|].
  apply notify_primitive_argument_list; [reflexivity|reflexivity|exact Hf].
Defined.

Lemma notify_propagates_exception_witness :
  (slots veto_first "x" = [] ++ VFun (Native 0) :: [VFun (Native 3)] ∧
   invoke throwing_engine VNull (Native 0) veto_first
   = Throw (Thrown (VStr "boom")) veto_first ∧
   notify throwing_engine "x" VNull veto_first
   = Throw (Thrown (VStr "boom")) ([], veto_first)) ∧
  (notify throwing_engine "x" VNull throw_second
   = Throw (Thrown (VStr "boom"))
       ([{| inv_slot := 0; inv_fn := Native 3;
            inv_args := [VNull]; inv_result := VUndefined |}],
        throw_second) ∧
   ∃ s0 f,
     replays throwing_engine
       [{| inv_slot := 0; inv_fn := Native 3;
           inv_args := [VNull]; inv_result := VUndefined |}]
       throw_second s0 ∧
     invoke throwing_engine VNull f s0
     = Throw (Thrown (VStr "boom")) throw_second).
Proof.
  split.
  - split; [reflexivity|]. split; [reflexivity|].
    apply (proj1 (notify_propagates_exception throwing_engine "x" VNull
                    veto_first) [] (Native 0) [VFun (Native 3)]);
      [reflexivity|constructor|reflexivity].
  - split; [reflexivity|].
    apply (proj2 (notify_propagates_exception throwing_engine "x" VNull
                    throw_second)).
    reflexivity.
Defined.

Lemma notify_menu_actions_never_veto_witness :
  (∀ f, VFun f ∈ slots menu_registry "m" → is_menu_closure f = true) ∧
  call (constant_engine (VBool false)) (Native 0) [VStr "el-7"] menu_registry
  = Ok (VBool false, menu_registry) ∧
  notify (constant_engine (VBool false)) "m" id_payload menu_registry
  = Ok (true,
        [{| inv_slot := 0; inv_fn := MenuAction 0 (Native 0);
            inv_args := [id_payload]; inv_result := VUndefined |}],
        menu_registry) ∧
  ∀ c, c ∈ [{| inv_slot := 0; inv_fn := MenuAction 0 (Native 0);
               inv_args := [id_payload]; inv_result := VUndefined |}] →
       inv_result c = VUndefined.
Proof.
  assert (∀ f, VFun f ∈ slots menu_registry "m" → is_menu_closure f = true)
    as Hmenu.
  { intros f Hf.
    change (slots menu_registry "m")
      with [VFun (MenuAction 0 (Native 0))] in Hf.
    by apply list_elem_of_singleton in Hf as [= ->]. }
  split; [exact Hmenu|]. split; [reflexivity|]. split; [reflexivity|].
  apply (notify_menu_actions_never_veto (constant_engine (VBool false)) "m"
           id_payload menu_registry true _ menu_registry Hmenu eq_refl).
Defined.

Lemma notify_menu_action_delivers_id_witness :
  slots menu_registry "m" = [VFun (MenuAction 0 (Native 0))] ∧
  positional id_payload = false ∧
  notify recording_engine "m" id_payload menu_registry
  = Ok (true,
        [{| inv_slot := 0; inv_fn := MenuAction 0 (Native 0);
            inv_args := [id_payload]; inv_result := VUndefined |}],
        (add "seen" (VStr "el-7") menu_registry).2) ∧
  notify recording_engine "m" id_payload menu_registry =
  match call recording_engine (Native 0) [get_field id_payload "id"]
          menu_registry with
  | Ok (_, st1) =>
      Ok (true,
          [{| inv_slot := 0; inv_fn := MenuAction 0 (Native 0);
              inv_args := [id_payload]; inv_result := VUndefined |}],
          st1)
  | Throw err st1 => Throw err ([], st1)
  end.
Proof.
  split; [reflexivity|]. split; [reflexivity|]. split; [reflexivity|].
  apply (notify_menu_action_delivers_id recording_engine "m" 0 (Native 0)
           id_payload menu_registry); [reflexivity|reflexivity|done|done].
Defined.

Lemma removeByCallback_known_event_witness :
  is_Some (listeners two_events !! "x") ∧
  (VFun (Native 5) ∉ slots two_events "x") ∧
  removeByCallback (constant_engine VUndefined) "x" (Native 5) two_events
  = Ok (false, two_events) ∧
  VFun (Native 0) ∈ slots two_events "x" ∧
  is_function (member_remove (constant_engine VUndefined) (Native 0)) = false ∧
  removeByCallback (constant_engine VUndefined) "x" (Native 0) two_events
  = Throw TypeError two_events.
Proof.
  assert (is_Some (listeners two_events !! "x")) as Hsome by (by eexists).
  assert (VFun (Native 5) ∉ slots two_events "x") as Hnot.
  { intros Hin. change (slots two_events "x") with [VFun (Native 0)] in Hin.
    by apply list_elem_of_singleton in Hin. }
  assert (VFun (Native 0) ∈ slots two_events "x") as Hin
    by apply list_elem_of_here.
  split; [exact Hsome|]. split; [exact Hnot|].
  split.
  { by apply (removeByCallback_known_event (constant_engine VUndefined) "x"
                (Native 5) two_events Hsome). }
  split; [exact Hin|]. split; [reflexivity|].
  by apply (removeByCallback_known_event (constant_engine VUndefined) "x"
              (Native 0) two_events Hsome).
Defined.

Lemma reply_without_completion_witness :
  wf Listeners ∧
  Forall (ordinary (constant_engine VUndefined)) ["a"; "b"; "c"] ∧
  length ["a"; "b"; "c"] = length (actions three_actions) ∧
  is_function VUndefined = false ∧
  ∃ st1,
    request_callback (registerMenuActionGroup three_actions VUndefined)
      (constant_engine VUndefined) ["a"; "b"; "c"] Listeners
    = Throw TypeError ([], st1) ∧
    ∀ event, slots st1 event =
             slots Listeners event
             ++ adapters_for event (closures Listeners) ["a"; "b"; "c"]
                  (actions three_actions).
Proof.
  assert (Forall (ordinary (constant_engine VUndefined)) ["a"; "b"; "c"])
    as Hord by (repeat constructor; discriminate).
  split; [apply wf_Listeners|]. split; [exact Hord|].
  split; [reflexivity|]. split; [reflexivity|].
  exact (reply_without_completion (constant_engine VUndefined) three_actions
           VUndefined ["a"; "b"; "c"] Listeners wf_Listeners Hord eq_refl
           eq_refl).
Defined.

Lemma registry_stays_well_formed_witness :
  wf two_events ∧ wf (remove "x" 0 two_events).
Proof.
  split; [apply wf_two_events|].
  apply (registry_stays_well_formed (constant_engine VUndefined));
    apply wf_two_events.
Defined.
